(** * traffic-comparator: the replayer-triples log file loader

    A shallow embedding of [traffic_comparator/log_file_loader.py]
    ([ReplayerTriplesFileLoader]) and the properties of its field
    extraction, triple parsing and loading.

    Python objects that the loader creates ([Request], [Response],
    [RequestResponsePair]) live in a heap and are referred to by location,
    so that object identity ([is], [id(..)]) is equality of locations.
    Exceptions and the logger are explicit: a computation maps a state
    (heap and log) to either an exception or a value, and a new state. *)

From stdpp Require Import gmap strings list fin_maps.
From Stdlib Require Import ZArith Ascii.

Local Set Warnings "-register-all".

(** ** Python values *)

(** A Python [float]: not-a-number, an infinity, or the finite value
    [m * 2^e]. The loader never computes with floats; it only hands them to
    [int]. *)
Inductive pyfloat :=
| FNan
| FInf (negative : bool)
| FFinite (m e : Z).

(** The values [json.loads] produces: [None], [bool], [int], [float],
    [str], [list] and [dict] (keys are strings; a decoded object keeps the
    last of several equal keys, so a finite map is exact). *)
Inductive pyval :=
| PNone
| PBool (b : bool)
| PInt (n : Z)
| PFloat (f : pyfloat)
| PStr (s : string)
| PList (l : list pyval)
| PDict (d : gmap string pyval).

(** The exceptions the loader can meet. [JSONDecodeError] is the one
    [json.loads] raises on text that is not a JSON document. *)
Inductive exn :=
| JSONDecodeError
| KeyError (key : string)
| TypeError
| ValueError
| OverflowError
| AttributeError
| StopIteration
| FileNotFoundError (path : string).

Definition result (A : Type) : Type := exn + A.

(** ** Dynamic operations on values *)

(** [v[key]] for a string [key]. Only a dict can be indexed by a string;
    a missing key is a [KeyError] naming the key. *)
Definition py_getitem (v : pyval) (key : string) : result pyval :=
  match v with
  | PDict d =>
      match d !! key with
      | Some x => inr x
      | None => inl (KeyError key)
      end
  | _ => inl TypeError
  end.

(** [v.pop(key)] for a string [key]: the popped value and the container
    afterwards. [list.pop] wants an index; the other values have no
    [pop]. *)
Definition py_pop (v : pyval) (key : string) : result (pyval * pyval) :=
  match v with
  | PDict d =>
      match d !! key with
      | Some x => inr (x, PDict (delete key d))
      | None => inl (KeyError key)
      end
  | PList _ => inl TypeError
  | _ => inl AttributeError
  end.

Fixpoint is_prefix (p s : string) : bool :=
  match p, s with
  | EmptyString, _ => true
  | String a p', String b s' => if Ascii.eqb a b then is_prefix p' s' else false
  | String _ _, EmptyString => false
  end.

Fixpoint is_substring (p s : string) : bool :=
  is_prefix p s ||
  match s with
  | EmptyString => false
  | String _ s' => is_substring p s'
  end.

Definition is_str (key : string) (v : pyval) : bool :=
  match v with
  | PStr s => String.eqb s key
  | _ => false
  end.

(** [key in v] for a string [key]. *)
Definition py_contains (key : string) (v : pyval) : result bool :=
  match v with
  | PDict d => inr (bool_decide (is_Some (d !! key)))
  | PList l => inr (existsb (is_str key) l)
  | PStr s => inr (is_substring key s)
  | _ => inl TypeError
  end.

(** ** [int(..)] *)

Local Open Scope Z_scope.

(** Truncation toward zero of [m * 2^e]. *)
Definition float_trunc (m e : Z) : Z :=
  if 0 <=? e then m * 2 ^ e else Z.quot m (2 ^ (- e)).

(** White space that [int] strips from both ends of a string (code points
    below 256): tab, line feed, vertical tab, form feed, carriage return,
    space, next line (U+0085) and no-break space (U+00A0). *)
Definition is_int_space (a : ascii) : bool :=
  let n := nat_of_ascii a in
  ((9 <=? n) && (n <=? 13))%nat || (n =? 32)%nat || (n =? 133)%nat || (n =? 160)%nat.

Definition digit_of (a : ascii) : option Z :=
  let n := nat_of_ascii a in
  if ((48 <=? n) && (n <=? 57))%nat then Some (Z.of_nat (n - 48)) else None.

Fixpoint lstrip (s : list ascii) : list ascii :=
  match s with
  | a :: s' => if is_int_space a then lstrip s' else s
  | [] => []
  end.

Definition strip (s : list ascii) : list ascii :=
  rev (lstrip (rev (lstrip s))).

(** Digits with single underscores between them, most significant first;
    [after_digit] tells whether the previous character was a digit, [acc]
    is the value read so far. *)
Fixpoint read_digits (after_digit : bool) (acc : Z) (s : list ascii) : option Z :=
  match s with
  | [] => if after_digit then Some acc else None
  | a :: s' =>
      match digit_of a with
      | Some d => read_digits true (10 * acc + d) s'
      | None =>
          if Ascii.eqb a "_"%char && after_digit
          then match s' with
               | b :: _ =>
                   match digit_of b with
                   | Some _ => read_digits false acc s'
                   | None => None
                   end
               | [] => None
               end
          else None
      end
  end.

(** [int(s)] in base 10: optional surrounding white space, an optional
    sign, then digits. The interpreter's cap on the number of digits of a
    literal is not modelled. *)
Definition int_of_str (s : string) : option Z :=
  match strip (String.list_ascii_of_string s) with
  | a :: rest =>
      if Ascii.eqb a "-"%char then Z.opp <$> read_digits false 0 rest
      else if Ascii.eqb a "+"%char then read_digits false 0 rest
      else read_digits false 0 (a :: rest)
  | [] => None
  end.

(** [int(v)]. *)
Definition py_int (v : pyval) : result Z :=
  match v with
  | PInt n => inr n
  | PBool b => inr (if b then 1 else 0)
  | PFloat FNan => inl ValueError
  | PFloat (FInf _) => inl OverflowError
  | PFloat (FFinite m e) => inr (float_trunc m e)
  | PStr s =>
      match int_of_str s with
      | Some n => inr n
      | None => inl ValueError
      end
  | PNone | PList _ | PDict _ => inl TypeError
  end.

(** A decimal numeral: a non-empty string of the digits 0 to 9, and the
    number it denotes. *)
Definition is_digit (a : ascii) : bool :=
  match digit_of a with
  | Some _ => true
  | None => false
  end.

Definition is_numeral (s : string) : Prop :=
  s ≠ EmptyString ∧ Forall (λ a, is_digit a = true) (String.list_ascii_of_string s).

Definition numeral_value (s : string) : Z :=
  fold_left (λ acc a, 10 * acc + default 0 (digit_of a)) (String.list_ascii_of_string s) 0.

Local Close Scope Z_scope.

(** ** The data model

    The classes [Request], [Response] and [RequestResponsePair] are
    defined in [traffic_comparator/data.py], which is not among the
    sources; they are taken from the specification and from the way the
    loader and its test use them. Python is dynamically typed: an attribute
    holds whatever value the loader stores in it. *)

Definition loc := nat.

Module Request.
(** Modelled from the spec: the class [Request] of [data.py], with the
    attributes [timestamp], [http_method], [uri], [headers] and [body]. The
    loader calls [Request()] without arguments, so each has a default,
    taken to be [None]. *)
Record t := mk {
  timestamp : pyval;
  http_method : pyval;
  uri : pyval;
  headers : pyval;
  body : pyval
}.
Definition new : t := mk PNone PNone PNone PNone PNone.
Definition set_http_method (x : pyval) (r : t) : t :=
  mk (timestamp r) x (uri r) (headers r) (body r).
Definition set_uri (x : pyval) (r : t) : t :=
  mk (timestamp r) (http_method r) x (headers r) (body r).
Definition set_headers (x : pyval) (r : t) : t :=
  mk (timestamp r) (http_method r) (uri r) x (body r).
Definition set_body (x : pyval) (r : t) : t :=
  mk (timestamp r) (http_method r) (uri r) (headers r) x.
End Request.

Module Response.
(** Modelled from the spec: the class [Response] of [data.py], with the
    attributes [timestamp], [statuscode], [headers], [latency] and [body],
    [None] by default. *)
Record t := mk {
  timestamp : pyval;
  statuscode : pyval;
  headers : pyval;
  latency : pyval;
  body : pyval
}.
Definition new : t := mk PNone PNone PNone PNone PNone.
Definition set_statuscode (x : pyval) (r : t) : t :=
  mk (timestamp r) x (headers r) (latency r) (body r).
Definition set_headers (x : pyval) (r : t) : t :=
  mk (timestamp r) (statuscode r) x (latency r) (body r).
Definition set_latency (x : pyval) (r : t) : t :=
  mk (timestamp r) (statuscode r) (headers r) x (body r).
Definition set_body (x : pyval) (r : t) : t :=
  mk (timestamp r) (statuscode r) (headers r) (latency r) x.
End Response.

Module RequestResponsePair.
(** Modelled from the spec: the class [RequestResponsePair] of [data.py],
    built as [RequestResponsePair(request, response,
    corresponding_pair=None)]; it refers to its request and response and,
    without owning it, to its counterpart. *)
Record t := mk {
  request : loc;
  response : loc;
  corresponding_pair : option loc
}.
Definition set_corresponding_pair (x : option loc) (p : t) : t :=
  mk (request p) (response p) x.
End RequestResponsePair.

Inductive obj :=
| ORequest (r : Request.t)
| OResponse (r : Response.t)
| OPair (p : RequestResponsePair.t).

(** What the logger is given. *)
Inductive log_record :=
| Debug_body_not_json (rawbody : pyval)
| Info_line_error (i : nat) (file_path : string) (e : exn)
| Info_loaded (primary shadow : nat) (file_path : string).

Record state := mkState {
  heap : list obj;
  log : list log_record
}.

Definition init : state := mkState [] [].

(** The state after objects were allocated and records logged. *)
Definition grown (st : state) (objs : list obj) (lg : list log_record) : state :=
  mkState (heap st ++ objs) (log st ++ lg).

(** The objects a successfully parsed line adds to a heap of [n] objects:
    the request, the primary response and pair, the shadow response and
    pair. *)
Definition triple_objects (n : nat) (rq : Request.t) (r1 r2 : Response.t) : list obj :=
  [ORequest rq; OResponse r1;
   OPair (RequestResponsePair.mk n (n + 1) (Some (n + 4)%nat));
   OResponse r2;
   OPair (RequestResponsePair.mk n (n + 3) (Some (n + 2)%nat))].

(** ** Computations: state, exceptions *)

Definition M (A : Type) : Type := state → result A * state.

Global Instance M_ret : MRet M := λ A a st, (inr a, st).

Global Instance M_bind : MBind M := λ A B f m st,
  match m st with
  | (inr a, st') => f a st'
  | (inl e, st') => (inl e, st')
  end.

Definition lift {A} (r : result A) : M A := λ st, (r, st).

(** [try: m except E as e: h e], where [catches e] tells whether [e] is
    an instance of [E]. *)
Definition try_except {A} (m : M A) (catches : exn → bool) (h : exn → M A) : M A := λ st,
  match m st with
  | (inl e, st') => if catches e then h e st' else (inl e, st')
  | r => r
  end.

(** A new object; its identity is its location. *)
Definition alloc (o : obj) : M loc := λ st,
  (inr (length (heap st)), mkState (heap st ++ [o]) (log st)).

Definition update (l : loc) (f : obj → obj) : M unit := λ st,
  (inr (), mkState (alter f l (heap st)) (log st)).

Definition logger (r : log_record) : M unit := λ st,
  (inr (), mkState (heap st) (log st ++ [r])).

(** Attribute assignment [r.a = x] on an object of the given class. *)
Definition setattr_request (l : loc) (set : Request.t → Request.t) : M unit :=
  update l (λ o, match o with ORequest r => ORequest (set r) | _ => o end).

Definition setattr_response (l : loc) (set : Response.t → Response.t) : M unit :=
  update l (λ o, match o with OResponse r => OResponse (set r) | _ => o end).

Definition setattr_pair (l : loc) (set : RequestResponsePair.t → RequestResponsePair.t) : M unit :=
  update l (λ o, match o with OPair p => OPair (set p) | _ => o end).

(** [for x in xs: acc = body x acc]. *)
Fixpoint for_in {A S} (xs : list A) (body : A → S → M S) (acc : S) : M S :=
  match xs with
  | [] => mret acc
  | x :: xs' => acc' ← body x acc; for_in xs' body acc'
  end.

Fixpoint enumerate_from {A} (i : nat) (xs : list A) : list (nat * A) :=
  match xs with
  | [] => []
  | x :: xs' => (i, x) :: enumerate_from (S i) xs'
  end.

Definition enumerate {A} (xs : list A) : list (nat * A) := enumerate_from 0 xs.

(** A computation that raises [e], or returns, in whatever state it is
    run. *)
Definition fails {A} (m : M A) (e : exn) : Prop := ∀ st, (m st).1 = inl e.

Definition succeeds {A} (m : M A) : Prop := ∀ st, ∃ a, (m st).1 = inr a.

(** ** A reference decoder

    A decoder for the fragment of JSON whose numbers are integers: it
    follows the grammar of [json.loads] (white space, the three literals,
    strings with their escapes and without control characters, arrays,
    objects where a later key replaces an earlier equal one, nothing but
    white space after the document). Numbers with a fraction or an exponent,
    the literals [NaN] and [Infinity], and [\u] escapes above 255 are outside
    the fragment and rejected. It instantiates
    the decoder of the loader on concrete lines. *)
Module MiniJson.

Local Open Scope Z_scope.

Definition dquote : ascii := "034"%char.

Definition is_ws (a : ascii) : bool :=
  let n := nat_of_ascii a in
  ((n =? 32) || (n =? 9) || (n =? 10) || (n =? 13))%nat.

Fixpoint skip_ws (s : list ascii) : list ascii :=
  match s with
  | a :: s' => if is_ws a then skip_ws s' else s
  | [] => []
  end.

Definition hex_of (a : ascii) : option nat :=
  let n := nat_of_ascii a in
  if ((48 <=? n) && (n <=? 57))%nat then Some (n - 48)%nat
  else if ((97 <=? n) && (n <=? 102))%nat then Some (n - 87)%nat
  else if ((65 <=? n) && (n <=? 70))%nat then Some (n - 55)%nat
  else None.

Definition unescape (a : ascii) : option ascii :=
  if Ascii.eqb a dquote then Some dquote
  else if Ascii.eqb a "\"%char then Some "\"%char
  else if Ascii.eqb a "/"%char then Some "/"%char
  else if Ascii.eqb a "b"%char then Some "008"%char
  else if Ascii.eqb a "f"%char then Some "012"%char
  else if Ascii.eqb a "n"%char then Some "010"%char
  else if Ascii.eqb a "r"%char then Some "013"%char
  else if Ascii.eqb a "t"%char then Some "009"%char
  else None.

(** The characters of a string up to its closing quotation mark (the
    opening one has been read). *)
Fixpoint read_string (s : list ascii) : option (string * list ascii) :=
  match s with
  | [] => None
  | a :: s' =>
      if Ascii.eqb a dquote then Some (EmptyString, s')
      else if Ascii.eqb a "\"%char then
        match s' with
        | "u"%char :: h1 :: h2 :: h3 :: h4 :: s'' =>
            match hex_of h1, hex_of h2, hex_of h3, hex_of h4 with
            | Some 0%nat, Some 0%nat, Some x, Some y =>
                match read_string s'' with
                | Some (r, t) => Some (String (ascii_of_nat (16 * x + y)) r, t)
                | None => None
                end
            | _, _, _, _ => None
            end
        | b :: s'' =>
            match unescape b, read_string s'' with
            | Some c, Some (r, t) => Some (String c r, t)
            | _, _ => None
            end
        | [] => None
        end
      else if (nat_of_ascii a <? 32)%nat then None
      else match read_string s' with
           | Some (r, t) => Some (String a r, t)
           | None => None
           end
  end.

Fixpoint read_nat (acc : Z) (s : list ascii) : Z * list ascii :=
  match s with
  | a :: s' =>
      match digit_of a with
      | Some d => read_nat (10 * acc + d) s'
      | None => (acc, s)
      end
  | [] => (acc, [])
  end.

Definition ends_number (s : list ascii) : bool :=
  match s with
  | a :: _ => negb (Ascii.eqb a "."%char || Ascii.eqb a "e"%char || Ascii.eqb a "E"%char)
  | [] => true
  end.

(** An integer: [0], or a non-zero digit followed by digits. *)
Definition read_int (s : list ascii) : option (Z * list ascii) :=
  match s with
  | a :: s' =>
      match digit_of a with
      | Some 0 => if ends_number s' then Some (0, s') else None
      | Some d => let '(n, t) := read_nat d s' in if ends_number t then Some (n, t) else None
      | None => None
      end
  | [] => None
  end.

Definition read_literal (lit : string) (v : pyval) (s : list ascii) : option (pyval * list ascii) :=
  let l := String.list_ascii_of_string lit in
  if bool_decide (take (length l) s = l) then Some (v, drop (length l) s) else None.

Fixpoint read_value (fuel : nat) (s : list ascii) : option (pyval * list ascii) :=
  match fuel with
  | O => None
  | S fuel =>
      match skip_ws s with
      | [] => None
      | a :: s' =>
          if Ascii.eqb a "{"%char then
            match skip_ws s' with
            | b :: t => if Ascii.eqb b "}"%char then Some (PDict ∅, t) else read_members fuel ∅ (b :: t)
            | [] => None
            end
          else if Ascii.eqb a "["%char then
            match skip_ws s' with
            | b :: t => if Ascii.eqb b "]"%char then Some (PList [], t) else read_elements fuel [] (b :: t)
            | [] => None
            end
          else if Ascii.eqb a dquote then
            match read_string s' with
            | Some (r, t) => Some (PStr r, t)
            | None => None
            end
          else if Ascii.eqb a "-"%char then
            match read_int s' with
            | Some (n, t) => Some (PInt (- n), t)
            | None => None
            end
          else if Ascii.eqb a "t"%char then read_literal "true" (PBool true) (a :: s')
          else if Ascii.eqb a "f"%char then read_literal "false" (PBool false) (a :: s')
          else if Ascii.eqb a "n"%char then read_literal "null" PNone (a :: s')
          else match read_int (a :: s') with
               | Some (n, t) => Some (PInt n, t)
               | None => None
               end
      end
  end
with read_members (fuel : nat) (acc : gmap string pyval) (s : list ascii) : option (pyval * list ascii) :=
  match fuel with
  | O => None
  | S fuel =>
      match skip_ws s with
      | a :: s1 =>
          if Ascii.eqb a dquote then
            match read_string s1 with
            | Some (k, s2) =>
                match skip_ws s2 with
                | c :: s3 =>
                    if Ascii.eqb c ":"%char then
                      match read_value fuel s3 with
                      | Some (v, s4) =>
                          match skip_ws s4 with
                          | d :: s5 =>
                              if Ascii.eqb d ","%char then read_members fuel (<[k:=v]> acc) s5
                              else if Ascii.eqb d "}"%char then Some (PDict (<[k:=v]> acc), s5)
                              else None
                          | [] => None
                          end
                      | None => None
                      end
                    else None
                | [] => None
                end
            | None => None
            end
          else None
      | [] => None
      end
  end
with read_elements (fuel : nat) (acc : list pyval) (s : list ascii) : option (pyval * list ascii) :=
  match fuel with
  | O => None
  | S fuel =>
      match read_value fuel s with
      | Some (v, s1) =>
          match skip_ws s1 with
          | d :: s2 =>
              if Ascii.eqb d ","%char then read_elements fuel (acc ++ [v]) s2
              else if Ascii.eqb d "]"%char then Some (PList (acc ++ [v]), s2)
              else None
          | [] => None
          end
      | None => None
      end
  end.

Definition loads (s : string) : option pyval :=
  let l := String.list_ascii_of_string s in
  match read_value (S (length l)) l with
  | Some (v, rest) =>
      match skip_ws rest with
      | [] => Some v
      | _ :: _ => None
      end
  | None => None
  end.

(** Lines are written with an apostrophe where the text has a quotation
    mark. *)
Definition quoted (s : string) : string :=
  String.string_of_list_ascii
    (map (λ a, if Ascii.eqb a "'"%char then dquote else a) (String.list_ascii_of_string s)).

End MiniJson.

(** ** Concrete lines

    [LOG_ENTRY] is the line of the repository's test
    ([tests/test_replayer_triples_log_file_loader.py]); the others vary it. *)
Module Fixtures.

Definition LOG_ENTRY : string := MiniJson.quoted
  "{'request': {'Accept': '*/*', 'User-Agent': 'curl/7.61.1', 'Request-URI': '/', 'Host': 'localhost:9200', 'Method': 'GET', 'HTTP-Version': 'HTTP/1.1', 'body': ''}, 'primaryResponse': {'HTTP-Version': 'HTTP/1.1', 'Reason-Phrase': 'OK', 'Status-Code': '200', 'body': '{\n  \'name\' : \'primary-cluster-node-1\',\n  \'cluster_name\' : \'primary-cluster\',\n \'tagline\' : \'You Know, for Search\'\n}\n', 'content-length': '549', 'content-type': 'application/json; charset=UTF-8', 'response_time_ms': 14}, 'shadowResponse': {'content-length': '549', 'content-type': 'application/json; charset=UTF-8', 'response_time_ms': 199, 'HTTP-Version': 'HTTP/1.1', 'Status-Code': '200', 'body': '{\n  \'name\' : \'3c22f.ant.amazon.com\',\n  \'cluster_name\' : \'elasticsearch\',\n  \'tagline\' : \'You Know, for Search\'\n}\n', 'Reason-Phrase': 'OK'}}".

Definition LOG_ENTRY_REQUEST : Request.t :=
  Request.mk PNone (PStr "GET") (PStr "/")
    (PDict (<["Accept" := PStr "*/*"]> (<["User-Agent" := PStr "curl/7.61.1"]>
            (<["Host" := PStr "localhost:9200"]> ∅))))
    (PStr "").

Definition LOG_ENTRY_PRIMARY_RESPONSE : Response.t :=
  Response.mk PNone (PInt 200)
    (PDict (<["content-length" := PStr "549"]>
            (<["content-type" := PStr "application/json; charset=UTF-8"]> ∅)))
    (PInt 14)
    (PDict (<["name" := PStr "primary-cluster-node-1"]>
            (<["cluster_name" := PStr "primary-cluster"]>
             (<["tagline" := PStr "You Know, for Search"]> ∅)))).

Definition LOG_ENTRY_SHADOW_RESPONSE : Response.t :=
  Response.mk PNone (PInt 200)
    (PDict (<["content-length" := PStr "549"]>
            (<["content-type" := PStr "application/json; charset=UTF-8"]> ∅)))
    (PInt 199)
    (PDict (<["name" := PStr "3c22f.ant.amazon.com"]>
            (<["cluster_name" := PStr "elasticsearch"]>
             (<["tagline" := PStr "You Know, for Search"]> ∅)))).

(** A small valid line, and lines that fail: one without its
    [shadowResponse], one that is no JSON document, one whose primary
    status code is not a number. *)
Definition small_line : string := MiniJson.quoted
  "{'request': {'Method': 'GET', 'Request-URI': '/', 'body': '', 'Accept': '*/*'}, 'primaryResponse': {'Status-Code': '200', 'response_time_ms': 14, 'body': '{\'name\':\'x\'}'}, 'shadowResponse': {'Status-Code': 404, 'response_time_ms': 9, 'body': 'gz'}}".

Definition no_shadow_line : string := MiniJson.quoted
  "{'request': {'Method': 'GET', 'Request-URI': '/', 'body': ''}, 'primaryResponse': {'Status-Code': '200', 'response_time_ms': 14, 'body': ''}}".

Definition garbage_line : string := "not json".

Definition bad_status_line : string := MiniJson.quoted
  "{'request': {'Method': 'GET', 'Request-URI': '/', 'body': ''}, 'primaryResponse': {'Status-Code': 'OK', 'response_time_ms': 14, 'body': ''}, 'shadowResponse': {'Status-Code': '200', 'response_time_ms': 9, 'body': ''}}".

(** Two files for the batch loader, by path. *)
Definition two_files : gmap string (list string) :=
  <["a.log" := [small_line; no_shadow_line]]>
    (<["b.log" := [garbage_line; LOG_ENTRY; bad_status_line]]> ∅).

(** A request record and a response record with the discarded fields, also
    in another casing. *)
Definition request_record : pyval :=
  PDict (<["body" := PStr ""]> (<["Method" := PStr "GET"]> (<["Request-URI" := PStr "/"]>
        (<["HTTP-Version" := PStr "HTTP/1.1"]> (<["http-version" := PStr "HTTP/1.1"]>
        (<["Accept" := PStr "*/*"]> ∅)))))).

Definition response_fields_of (status latency : pyval) : gmap string pyval :=
  <["body" := PStr "gz"]> (<["response_time_ms" := latency]> (<["Status-Code" := status]>
    (<["Reason-Phrase" := PStr "OK"]> (<["reason-phrase" := PStr "OK"]>
    (<["content-length" := PStr "549"]> ∅))))).

Definition response_record : pyval := PDict (response_fields_of (PStr "200") (PInt 14)).

End Fixtures.

(** ** Vocabulary of the claims *)

(** The three sections of a line, in the order [_parseLine] reads them. *)
Definition sections : list string := ["request"; "primaryResponse"; "shadowResponse"].

(** The fields a record must have, in the order the extractor pops them,
    and the first of them that a record lacks. *)
Definition request_fields : list string := ["body"; "Method"; "Request-URI"].
Definition response_fields : list string := ["body"; "response_time_ms"; "Status-Code"].

Definition first_missing (fields : list string) (d : gmap string pyval) : option string :=
  List.find (λ field, bool_decide (d !! field = None)) fields.

(** The value under a key is a string, or the key is absent. *)
Definition str_or_absent (o : option pyval) : bool :=
  match o with
  | Some (PStr _) | None => true
  | Some _ => false
  end.

(** Which kind of record an extraction was for. *)
Inductive record_kind := RequestRecord | ResponseRecord.

(** ** The loader *)

Definition is_JSONDecodeError (e : exn) : bool :=
  match e with JSONDecodeError => true | _ => false end.

(** Every exception of [exn] is an instance of [Exception]. *)
Definition is_Exception (e : exn) : bool := true.

Section ReplayerTriplesFileLoader.

(** [json.loads] on a string: the decoded value, or [None] for a
    [JSONDecodeError]. The decoder belongs to the Python library; the
    loader is verified for any decoder. Limits of the interpreter (the
    recursion depth, the cap on the length of integer literals) are not
    part of the model. *)
Variable json_loads : string → option pyval.

(** The files that can be opened, by path, each as its lines. *)
Variable fs : gmap string (list string).

(** [json.loads(v)]: anything but a string is a [TypeError]. *)
Definition json_loads_py (v : pyval) : result pyval :=
  match v with
  | PStr s =>
      match json_loads s with
      | Some x => inr x
      | None => inl JSONDecodeError
      end
  | _ => inl TypeError
  end.

Definition open_file (file_path : string) : result (list string) :=
  match fs !! file_path with
  | Some lines => inr lines
  | None => inl (FileNotFoundError file_path)
  end.

(** What [_parseBodyAsJson] makes of a raw body: the value it returns and
    what it logs, or the exception that escapes it. *)
Definition decode (rawbody : pyval) : result (pyval * list log_record) :=
  match json_loads_py rawbody with
  | inr v => inr (v, [])
  | inl JSONDecodeError => inr (rawbody, [Debug_body_not_json rawbody])
  | inl e => inl e
  end.

Definition ignored_fields : list string := ["Reason-Phrase"; "HTTP-Version"].

Definition _parseBodyAsJson (rawbody : pyval) : M pyval :=
  try_except (lift (json_loads_py rawbody)) is_JSONDecodeError
    (λ _, logger (Debug_body_not_json rawbody);; mret rawbody).

(** [for field in cls.ignored_fields: if field in data: data.pop(field)] *)
Definition discard_ignored (data : pyval) : M pyval :=
  for_in ignored_fields (λ field data,
    present ← lift (py_contains field data);
    if present : bool
    then '(_, data) ← lift (py_pop data field); mret data
    else mret data) data.

Definition _parseResponse (responsedata : pyval) : M loc :=
  r ← alloc (OResponse Response.new);
  '(rawbody, responsedata) ← lift (py_pop responsedata "body");
  body ← _parseBodyAsJson rawbody;
  setattr_response r (Response.set_body body);;
  '(latency, responsedata) ← lift (py_pop responsedata "response_time_ms");
  setattr_response r (Response.set_latency latency);;
  '(status, responsedata) ← lift (py_pop responsedata "Status-Code");
  statuscode ← lift (py_int status);
  setattr_response r (Response.set_statuscode (PInt statuscode));;
  responsedata ← discard_ignored responsedata;
  setattr_response r (Response.set_headers responsedata);;
  mret r.

Definition _parseRequest (requestdata : pyval) : M loc :=
  r ← alloc (ORequest Request.new);
  '(rawbody, requestdata) ← lift (py_pop requestdata "body");
  body ← _parseBodyAsJson rawbody;
  setattr_request r (Request.set_body body);;
  '(method, requestdata) ← lift (py_pop requestdata "Method");
  setattr_request r (Request.set_http_method method);;
  '(target, requestdata) ← lift (py_pop requestdata "Request-URI");
  setattr_request r (Request.set_uri target);;
  requestdata ← discard_ignored requestdata;
  setattr_request r (Request.set_headers requestdata);;
  mret r.

Definition _parseLine (line : string) : M (loc * loc) :=
  item ← lift (json_loads_py (PStr line));
  requestdata ← lift (py_getitem item "request");
  primaryResponseData ← lift (py_getitem item "primaryResponse");
  shadowResponseData ← lift (py_getitem item "shadowResponse");
  request ← _parseRequest requestdata;
  primaryResponse ← _parseResponse primaryResponseData;
  primaryPair ← alloc (OPair (RequestResponsePair.mk request primaryResponse None));
  shadowResponse ← _parseResponse shadowResponseData;
  shadowPair ← alloc (OPair (RequestResponsePair.mk request shadowResponse (Some primaryPair)));
  setattr_pair primaryPair (RequestResponsePair.set_corresponding_pair (Some shadowPair));;
  mret (primaryPair, shadowPair).

(** A line is valid when [_parseLine] returns on it (run in the initial
    state; the outcome does not depend on the state). *)
Definition parses (line : string) : bool :=
  match (_parseLine line init).1 with
  | inr _ => true
  | inl _ => false
  end.

(** The objects [p] and [s] of the heap [h] are the two pairs that
    [_parseLine] returned for [line] at some earlier point. *)
Definition from_line (h : list obj) (line : string) (p s : loc) : Prop :=
  ∃ st st', _parseLine line st = (inr (p, s), st') ∧ heap st' `prefix_of` h.

(** The two pairs at [p] and [s] refer to each other and to one request
    object. *)
Definition linked (h : list obj) (p s : loc) : Prop :=
  ∃ pp sp rq,
    h !! p = Some (OPair pp) ∧ h !! s = Some (OPair sp) ∧ p ≠ s ∧
    RequestResponsePair.corresponding_pair pp = Some s ∧
    RequestResponsePair.corresponding_pair sp = Some p ∧
    RequestResponsePair.request pp = RequestResponsePair.request sp ∧
    h !! RequestResponsePair.request pp = Some (ORequest rq).

(** Modelled from the spec: the truth value of a [RequestResponsePair],
    tested by [if primaryPair:]. The class is a plain record of [data.py]
    without [__bool__] or [__len__], and such an object is true. *)
Definition truthy (pair : loc) : bool := true.

(** The body of the loop over the lines of one file. *)
Definition load_line (file_path : string) (il : nat * string)
    (streams : list loc * list loc) : M (list loc * list loc) :=
  let '(i, line) := il in
  let '(primaryPairs, shadowPairs) := streams in
  try_except
    ('(primaryPair, shadowPair) ← _parseLine line;
     let primaryPairs := if truthy primaryPair then primaryPairs ++ [primaryPair] else primaryPairs in
     let shadowPairs := if truthy shadowPair then shadowPairs ++ [shadowPair] else shadowPairs in
     mret (primaryPairs, shadowPairs))
    is_Exception
    (λ e, logger (Info_line_error i file_path e);; mret (primaryPairs, shadowPairs)).

Definition load_file (file_path : string) (streams : list loc * list loc)
    : M (list loc * list loc) :=
  log_file ← lift (open_file file_path);
  streams ← for_in (enumerate log_file) (load_line file_path) streams;
  logger (Info_loaded (length streams.1) (length streams.2) file_path);;
  mret streams.

Definition load (log_file_paths : list string) : M (list loc * list loc) :=
  for_in log_file_paths load_file ([], []).

(** [load_from_stdin] is a generator: it is suspended before the next
    line of the standard input, or finished. *)
Inductive generator :=
| Suspended (stdin : list string)
| Finished.

Definition load_from_stdin (stdin : list string) : generator := Suspended stdin.

(** [next(g)]: resume the generator up to its next [yield]. An exception
    that leaves the generator's body finishes the generator; so does the
    end of the input, with [StopIteration]. *)
Definition next (g : generator) (st : state) : result (loc * loc) * generator * state :=
  match g with
  | Finished => (inl StopIteration, Finished, st)
  | Suspended [] => (inl StopIteration, Finished, st)
  | Suspended (line :: stdin) =>
      match _parseLine line st with
      | (inr pairs, st') => (inr pairs, Suspended stdin, st')
      | (inl e, st') => (inl e, Finished, st')
      end
  end.

(** ** Validity read off the input

    Whether a record converts, and whether a line is parsed, as Boolean
    functions of the input alone. *)

Definition is_dict (v : pyval) : bool :=
  match v with
  | PDict _ => true
  | _ => false
  end.

Definition is_string (v : pyval) : bool :=
  match v with
  | PStr _ => true
  | _ => false
  end.

Definition valid_request (v : pyval) : bool :=
  match v with
  | PDict d =>
      match d !! "body" with
      | Some (PStr _) =>
          bool_decide (is_Some (d !! "Method")) && bool_decide (is_Some (d !! "Request-URI"))
      | _ => false
      end
  | _ => false
  end.

Definition valid_response (v : pyval) : bool :=
  match v with
  | PDict d =>
      match d !! "body", d !! "response_time_ms", d !! "Status-Code" with
      | Some (PStr _), Some _, Some status =>
          match py_int status with
          | inr _ => true
          | inl _ => false
          end
      | _, _, _ => false
      end
  | _ => false
  end.

Definition valid_line (line : string) : bool :=
  match json_loads line with
  | Some (PDict item) =>
      match item !! "request", item !! "primaryResponse", item !! "shadowResponse" with
      | Some requestdata, Some primaryResponseData, Some shadowResponseData =>
          valid_request requestdata && valid_response primaryResponseData
          && valid_response shadowResponseData
      | _, _, _ => false
      end
  | _ => false
  end.

(** ** The heap and the log of a load *)

(** The pairs [ps] and [ss] sit in consecutive blocks of five objects of
    the heap [h], at or after [lo] and in the order of the lists: a block
    at [n] holds a request, the primary response, the primary pair (at
    [n + 2]), the shadow response and the shadow pair (at [n + 4]). *)
Fixpoint blocks (lo : nat) (h : list obj) (ps ss : list loc) : Prop :=
  match ps, ss with
  | [], [] => True
  | p :: ps', s :: ss' =>
      ∃ n rq r1 r2,
        lo ≤ n ∧ p = n + 2 ∧ s = n + 4 ∧
        take 5 (drop n h) = triple_objects n rq r1 r2 ∧
        blocks (n + 5) h ps' ss'
  | _, _ => False
  end.

Definition is_info (r : log_record) : bool :=
  match r with
  | Debug_body_not_json _ => false
  | Info_line_error _ _ _ | Info_loaded _ _ _ => true
  end.

(** A computation that logs nothing at level [info]. *)
Definition quiet {A} (m : M A) : Prop :=
  ∀ st r st', m st = (r, st') →
    ∃ lg, log st' = log st ++ lg ∧ List.filter is_info lg = [].

(** The exception [_parseLine] raises on a line, if any. *)
Definition line_exception (line : string) : option exn :=
  match (_parseLine line init).1 with
  | inl e => Some e
  | inr _ => None
  end.

(** The error records of the lines of a file, the first line numbered
    [i]. *)
Fixpoint line_errors (file_path : string) (i : nat) (lines : list string) : list log_record :=
  match lines with
  | [] => []
  | line :: lines' =>
      match line_exception line with
      | Some e => Info_line_error i file_path e :: line_errors file_path (S i) lines'
      | None => line_errors file_path (S i) lines'
      end
  end.

(** The records at level [info] of a load of the given files, [n] pairs
    having been loaded before. *)
Fixpoint load_records (n : nat) (files : list (string * list string)) : list log_record :=
  match files with
  | [] => []
  | (file_path, lines) :: files' =>
      let n' := n + length (List.filter parses lines) in
      line_errors file_path 0 lines ++ Info_loaded n' n' file_path :: load_records n' files'
  end.

(** The first path that cannot be opened. *)
Definition first_unopenable (log_file_paths : list string) : option string :=
  List.find (λ file_path, bool_decide (fs !! file_path = None)) log_file_paths.

(** ** Consuming the generator *)

(** [n] calls of [next] in a row: what each returned or raised, and the
    generator and the state afterwards. *)
Fixpoint nexts (n : nat) (g : generator) (st : state)
    : list (result (loc * loc)) * generator * state :=
  match n with
  | O => ([], g, st)
  | S n' =>
      let '(r, g', st') := next g st in
      let '(rs, g'', st'') := nexts n' g' st' in
      (r :: rs, g'', st'')
  end.

(** ** Two runs side by side *)

(** Two computations, run in states with the same heap whatever their
    logs, raise the same exception or return values related by [R], and
    leave the same heap. *)
Definition related {A B} (R : A → B → Prop) (m1 : M A) (m2 : M B) : Prop :=
  ∀ st1 st2, heap st1 = heap st2 →
    match m1 st1, m2 st2 with
    | (inr a, st1'), (inr b, st2') => R a b ∧ heap st1' = heap st2'
    | (inl e1, st1'), (inl e2, st2') => e1 = e2 ∧ heap st1' = heap st2'
    | _, _ => False
    end.

(** The streams [x] and [y] are [x0] and [y0] with the same pairs added. *)
Definition same_added (x0 y0 x y : list loc * list loc) : Prop :=
  ∃ ps ss, x = (x0.1 ++ ps, x0.2 ++ ss) ∧ y = (y0.1 ++ ps, y0.2 ++ ss).

(** ** Choosing a loader *)

Inductive LogFileFormat := HAPROXY_JSONS | REPLAYER_TRIPLES.

(** The value of a member of the enumeration. *)
Definition LogFileFormat_value (f : LogFileFormat) : string :=
  match f with
  | HAPROXY_JSONS => "haproxy-jsons"
  | REPLAYER_TRIPLES => "replayer-triples"
  end.

Definition LogFileFormat_eqb (f g : LogFileFormat) : bool :=
  match f, g with
  | HAPROXY_JSONS, HAPROXY_JSONS | REPLAYER_TRIPLES, REPLAYER_TRIPLES => true
  | _, _ => false
  end.

(** The loader classes, subclasses of [BaseLogFileLoader]. *)
Inductive loader_class := ReplayerTriplesFileLoader.

(** The dict [LOG_FILE_LOADER_MAPPING], as its items. *)
Definition LOG_FILE_LOADER_MAPPING : list (LogFileFormat * loader_class) :=
  [(REPLAYER_TRIPLES, ReplayerTriplesFileLoader)].

(** [mapping[key]] on such a dict: the [KeyError] carries the key. *)
Definition mapping_getitem (mapping : list (LogFileFormat * loader_class)) (key : LogFileFormat)
    : LogFileFormat + loader_class :=
  match List.find (λ item, LogFileFormat_eqb item.1 key) mapping with
  | Some item => inr item.2
  | None => inl key
  end.

(** [UnknownLogFileFormatException(format, original_exception)], the
    original exception being the [KeyError] of the look-up, given by its
    key. *)
Inductive UnknownLogFileFormatException :=
| MkUnknownLogFileFormatException (format : LogFileFormat) (original_key : LogFileFormat).

Definition getLogFileLoader (logFileFormat : LogFileFormat)
    : UnknownLogFileFormatException + loader_class :=
  match mapping_getitem LOG_FILE_LOADER_MAPPING logFileFormat with
  | inr cls => inr cls
  | inl key => inl (MkUnknownLogFileFormatException logFileFormat key)
  end.

(** ** Properties of the loader *)

(** *** Running a computation *)

Lemma run_bind {A B} (m : M A) (f : A → M B) st :
  (m ≫= f) st = match m st with
                | (inr a, st') => f a st'
                | (inl e, st') => (inl e, st')
                end.
Proof. reflexivity. Qed.

Lemma run_ret {A} (a : A) st : (mret a : M A) st = (inr a, st).
Proof. reflexivity. Qed.

Lemma run_lift {A} (r : result A) st : lift r st = (r, st).
Proof. reflexivity. Qed.

Lemma for_in_cons {A S} (x : A) (xs : list A) (body : A → S → M S) (acc : S) :
  for_in (x :: xs) body acc = (acc' ← body x acc; for_in xs body acc').
Proof. reflexivity. Qed.

Lemma alter_last {A} (f : A → A) (h : list A) (o : A) :
  alter f (length h) (h ++ [o]) = h ++ [f o].
Proof.
  induction h as [|x h IH]; [done|].
  change (x :: alter f (length h) (h ++ [o]) = x :: h ++ [f o]).
  by rewrite IH.
Qed.

Lemma grown_nil st : grown st [] [] = st.
Proof. destruct st. unfold grown. simpl. by rewrite !app_nil_r. Qed.

Lemma grown_grown st o1 l1 o2 l2 :
  grown (grown st o1 l1) o2 l2 = grown st (o1 ++ o2) (l1 ++ l2).
Proof. unfold grown. simpl. by rewrite <- !app_assoc. Qed.

(** *** Body decoding and the discarded fields *)

Lemma _parseBodyAsJson_run rawbody st :
  _parseBodyAsJson rawbody st =
    match json_loads_py rawbody with
    | inr v => (inr v, st)
    | inl JSONDecodeError => (inr rawbody, grown st [] [Debug_body_not_json rawbody])
    | inl e => (inl e, st)
    end.
Proof.
  unfold _parseBodyAsJson, try_except, lift.
  destruct (json_loads_py rawbody) as [[]|v]; try reflexivity.
  simpl. unfold grown. by rewrite app_nil_r.
Qed.

Lemma discard_step k (m : gmap string pyval) s :
  (present ← lift (py_contains k (PDict m));
   if present : bool
   then '(_, data) ← lift (py_pop (PDict m) k); mret data
   else mret (PDict m)) s = (inr (PDict (delete k m)), s).
Proof.
  rewrite run_bind, run_lift. simpl. case_bool_decide as Hk.
  - destruct Hk as [x Hx]. rewrite run_bind, run_lift. simpl. by rewrite Hx.
  - rewrite run_ret. rewrite delete_id; [done|].
    by apply eq_None_not_Some.
Qed.

Lemma discard_ignored_run (d : gmap string pyval) st :
  discard_ignored (PDict d) st =
    (inr (PDict (delete "HTTP-Version" (delete "Reason-Phrase" d))), st).
Proof.
  unfold discard_ignored, ignored_fields.
  rewrite for_in_cons, run_bind, discard_step.
  rewrite for_in_cons, run_bind, discard_step.
  reflexivity.
Qed.

(** *** The field extractor, step by step *)

Lemma _parseBodyAsJson_decode rawbody st :
  _parseBodyAsJson rawbody st =
    match decode rawbody with
    | inr (v, lg) => (inr v, grown st [] lg)
    | inl e => (inl e, st)
    end.
Proof.
  rewrite _parseBodyAsJson_run. unfold decode.
  destruct (json_loads_py rawbody) as [[]|v]; try reflexivity.
  by rewrite grown_nil.
Qed.

Lemma run_alloc o h lg :
  alloc o (mkState h lg) = (inr (length h), mkState (h ++ [o]) lg).
Proof. reflexivity. Qed.

Lemma run_logger r h lg :
  logger r (mkState h lg) = (inr (), mkState h (lg ++ [r])).
Proof. reflexivity. Qed.

Lemma run_setattr_response set h r lg :
  setattr_response (length h) set (mkState (h ++ [OResponse r]) lg)
  = (inr (), mkState (h ++ [OResponse (set r)]) lg).
Proof. unfold setattr_response, update. simpl. by rewrite alter_last. Qed.

Lemma run_setattr_request set h r lg :
  setattr_request (length h) set (mkState (h ++ [ORequest r]) lg)
  = (inr (), mkState (h ++ [ORequest (set r)]) lg).
Proof. unfold setattr_request, update. simpl. by rewrite alter_last. Qed.

Lemma _parseResponse_dict (d : gmap string pyval) h lg :
  _parseResponse (PDict d) (mkState h lg) =
    match d !! "body" with
    | None => (inl (KeyError "body"), mkState (h ++ [OResponse Response.new]) lg)
    | Some rawbody =>
        match decode rawbody with
        | inl e => (inl e, mkState (h ++ [OResponse Response.new]) lg)
        | inr (body, lg') =>
            let r1 := Response.set_body body Response.new in
            match d !! "response_time_ms" with
            | None => (inl (KeyError "response_time_ms"), mkState (h ++ [OResponse r1]) (lg ++ lg'))
            | Some latency =>
                let r2 := Response.set_latency latency r1 in
                match d !! "Status-Code" with
                | None => (inl (KeyError "Status-Code"), mkState (h ++ [OResponse r2]) (lg ++ lg'))
                | Some status =>
                    match py_int status with
                    | inl e => (inl e, mkState (h ++ [OResponse r2]) (lg ++ lg'))
                    | inr n =>
                        (inr (length h),
                         mkState (h ++ [OResponse (Response.mk PNone (PInt n)
                            (PDict (delete "HTTP-Version" (delete "Reason-Phrase"
                               (delete "Status-Code" (delete "response_time_ms" (delete "body" d))))))
                            latency body)]) (lg ++ lg'))
                    end
                end
            end
        end
    end.
Proof.
  unfold _parseResponse.
  rewrite run_bind, run_alloc, run_bind, run_lift. unfold py_pop at 1.
  destruct (d !! "body") as [rawbody|]; [|done].
  rewrite run_bind, _parseBodyAsJson_decode.
  destruct (decode rawbody) as [e|[body lg']]; [done|].
  unfold grown; cbn [heap log]. rewrite app_nil_r. cbv zeta.
  rewrite run_bind, run_setattr_response, run_bind, run_lift. unfold py_pop at 1.
  rewrite lookup_delete_ne by done.
  destruct (d !! "response_time_ms") as [latency|]; [|done].
  rewrite run_bind, run_setattr_response, run_bind, run_lift. unfold py_pop at 1.
  rewrite !lookup_delete_ne by done.
  destruct (d !! "Status-Code") as [status|]; [|done].
  rewrite run_bind, run_lift.
  destruct (py_int status) as [e|n]; [done|].
  rewrite run_bind, run_setattr_response, run_bind, discard_ignored_run.
  rewrite run_bind, run_setattr_response, run_ret.
  reflexivity.
Qed.

Lemma _parseResponse_nondict v h lg :
  (∀ d, v ≠ PDict d) →
  _parseResponse v (mkState h lg) =
    (inl match v with PList _ => TypeError | _ => AttributeError end,
     mkState (h ++ [OResponse Response.new]) lg).
Proof.
  intros Hv. unfold _parseResponse.
  rewrite run_bind, run_alloc, run_bind, run_lift.
  destruct v; try reflexivity. by destruct (Hv d).
Qed.

Lemma _parseRequest_dict (d : gmap string pyval) h lg :
  _parseRequest (PDict d) (mkState h lg) =
    match d !! "body" with
    | None => (inl (KeyError "body"), mkState (h ++ [ORequest Request.new]) lg)
    | Some rawbody =>
        match decode rawbody with
        | inl e => (inl e, mkState (h ++ [ORequest Request.new]) lg)
        | inr (body, lg') =>
            let r1 := Request.set_body body Request.new in
            match d !! "Method" with
            | None => (inl (KeyError "Method"), mkState (h ++ [ORequest r1]) (lg ++ lg'))
            | Some method =>
                let r2 := Request.set_http_method method r1 in
                match d !! "Request-URI" with
                | None => (inl (KeyError "Request-URI"), mkState (h ++ [ORequest r2]) (lg ++ lg'))
                | Some target =>
                    (inr (length h),
                     mkState (h ++ [ORequest (Request.mk PNone method target
                        (PDict (delete "HTTP-Version" (delete "Reason-Phrase"
                           (delete "Request-URI" (delete "Method" (delete "body" d))))))
                        body)]) (lg ++ lg'))
                end
            end
        end
    end.
Proof.
  unfold _parseRequest.
  rewrite run_bind, run_alloc, run_bind, run_lift. unfold py_pop at 1.
  destruct (d !! "body") as [rawbody|]; [|done].
  rewrite run_bind, _parseBodyAsJson_decode.
  destruct (decode rawbody) as [e|[body lg']]; [done|].
  unfold grown; cbn [heap log]. rewrite app_nil_r. cbv zeta.
  rewrite run_bind, run_setattr_request, run_bind, run_lift. unfold py_pop at 1.
  rewrite lookup_delete_ne by done.
  destruct (d !! "Method") as [method|]; [|done].
  rewrite run_bind, run_setattr_request, run_bind, run_lift. unfold py_pop at 1.
  rewrite !lookup_delete_ne by done.
  destruct (d !! "Request-URI") as [target|]; [|done].
  rewrite run_bind, run_setattr_request, run_bind, discard_ignored_run.
  rewrite run_bind, run_setattr_request, run_ret.
  reflexivity.
Qed.

Lemma _parseRequest_nondict v h lg :
  (∀ d, v ≠ PDict d) →
  _parseRequest v (mkState h lg) =
    (inl match v with PList _ => TypeError | _ => AttributeError end,
     mkState (h ++ [ORequest Request.new]) lg).
Proof.
  intros Hv. unfold _parseRequest.
  rewrite run_bind, run_alloc, run_bind, run_lift.
  destruct v; try reflexivity. by destruct (Hv d).
Qed.

(** *** Outcomes do not depend on the state

    Whether an extraction or a line fails, and with which exception, is
    decided by its input alone; the state only grows: objects are
    allocated after the existing ones, which are left as they are. *)

Lemma _parseResponse_cases v :
  (∃ e, ∀ st, ∃ o lg, _parseResponse v st = (inl e, grown st [o] lg)) ∨
  (∃ r lg, ∀ st, _parseResponse v st = (inr (length (heap st)), grown st [OResponse r] lg)).
Proof.
  destruct v as [| | | | | |d];
    try (left; eexists; intros [h lg]; exists (OResponse Response.new), [];
         rewrite _parseResponse_nondict by done; unfold grown; simpl;
         by rewrite app_nil_r).
  destruct (d !! "body") as [rawbody|] eqn:Hbody; cycle 1.
  { left. eexists. intros [h lg]. eexists _, [].
    rewrite _parseResponse_dict, Hbody. unfold grown; simpl. by rewrite app_nil_r. }
  destruct (decode rawbody) as [e|[body lg']] eqn:Hdec.
  { left. eexists. intros [h lg]. eexists _, [].
    rewrite _parseResponse_dict, Hbody, Hdec. unfold grown; simpl. by rewrite app_nil_r. }
  destruct (d !! "response_time_ms") as [latency|] eqn:Hlat; cycle 1.
  { left. eexists. intros [h lg]. eexists _, lg'.
    by rewrite _parseResponse_dict, Hbody, Hdec, Hlat. }
  destruct (d !! "Status-Code") as [status|] eqn:Hstatus; cycle 1.
  { left. eexists. intros [h lg]. eexists _, lg'.
    by rewrite _parseResponse_dict, Hbody, Hdec, Hlat, Hstatus. }
  destruct (py_int status) as [e|n] eqn:Hint.
  { left. eexists. intros [h lg]. eexists _, lg'.
    by rewrite _parseResponse_dict, Hbody, Hdec, Hlat, Hstatus, Hint. }
  right. eexists _, lg'. intros [h lg].
  by rewrite _parseResponse_dict, Hbody, Hdec, Hlat, Hstatus, Hint.
Qed.

Lemma _parseRequest_cases v :
  (∃ e, ∀ st, ∃ o lg, _parseRequest v st = (inl e, grown st [o] lg)) ∨
  (∃ r lg, ∀ st, _parseRequest v st = (inr (length (heap st)), grown st [ORequest r] lg)).
Proof.
  destruct v as [| | | | | |d];
    try (left; eexists; intros [h lg]; exists (ORequest Request.new), [];
         rewrite _parseRequest_nondict by done; unfold grown; simpl;
         by rewrite app_nil_r).
  destruct (d !! "body") as [rawbody|] eqn:Hbody; cycle 1.
  { left. eexists. intros [h lg]. eexists _, [].
    rewrite _parseRequest_dict, Hbody. unfold grown; simpl. by rewrite app_nil_r. }
  destruct (decode rawbody) as [e|[body lg']] eqn:Hdec.
  { left. eexists. intros [h lg]. eexists _, [].
    rewrite _parseRequest_dict, Hbody, Hdec. unfold grown; simpl. by rewrite app_nil_r. }
  destruct (d !! "Method") as [method|] eqn:Hmethod; cycle 1.
  { left. eexists. intros [h lg]. eexists _, lg'.
    by rewrite _parseRequest_dict, Hbody, Hdec, Hmethod. }
  destruct (d !! "Request-URI") as [target|] eqn:Huri; cycle 1.
  { left. eexists. intros [h lg]. eexists _, lg'.
    by rewrite _parseRequest_dict, Hbody, Hdec, Hmethod, Huri. }
  right. eexists _, lg'. intros [h lg].
  by rewrite _parseRequest_dict, Hbody, Hdec, Hmethod, Huri.
Qed.

(** The part of [_parseLine] after the three sections were found. *)
Lemma _parseLine_sections line item requestdata primaryResponseData shadowResponseData st :
  json_loads line = Some item →
  py_getitem item "request" = inr requestdata →
  py_getitem item "primaryResponse" = inr primaryResponseData →
  py_getitem item "shadowResponse" = inr shadowResponseData →
  _parseLine line st =
    (request ← _parseRequest requestdata;
     primaryResponse ← _parseResponse primaryResponseData;
     primaryPair ← alloc (OPair (RequestResponsePair.mk request primaryResponse None));
     shadowResponse ← _parseResponse shadowResponseData;
     shadowPair ← alloc (OPair (RequestResponsePair.mk request shadowResponse (Some primaryPair)));
     setattr_pair primaryPair (RequestResponsePair.set_corresponding_pair (Some shadowPair));;
     mret (primaryPair, shadowPair)) st.
Proof.
  intros Hitem Hrq Hpr Hsr. unfold _parseLine.
  rewrite run_bind, run_lift. unfold json_loads_py. rewrite Hitem.
  rewrite run_bind, run_lift, Hrq.
  rewrite run_bind, run_lift, Hpr.
  rewrite run_bind, run_lift, Hsr.
  reflexivity.
Qed.

(** A line fails before anything is allocated when it is not a JSON
    document or lacks one of the sections. *)
Lemma _parseLine_early line st :
  _parseLine line st =
    match json_loads line with
    | None => (inl JSONDecodeError, st)
    | Some item =>
        match py_getitem item "request" with
        | inl e => (inl e, st)
        | inr requestdata =>
            match py_getitem item "primaryResponse" with
            | inl e => (inl e, st)
            | inr primaryResponseData =>
                match py_getitem item "shadowResponse" with
                | inl e => (inl e, st)
                | inr shadowResponseData => _parseLine line st
                end
            end
        end
    end.
Proof.
  destruct (json_loads line) as [item|] eqn:Hitem; cycle 1.
  { unfold _parseLine. rewrite run_bind, run_lift. unfold json_loads_py. by rewrite Hitem. }
  destruct (py_getitem item "request") as [e|rq] eqn:Hrq.
  { unfold _parseLine. rewrite run_bind, run_lift. unfold json_loads_py. rewrite Hitem.
    by rewrite run_bind, run_lift, Hrq. }
  destruct (py_getitem item "primaryResponse") as [e|pr] eqn:Hpr.
  { unfold _parseLine. rewrite run_bind, run_lift. unfold json_loads_py. rewrite Hitem.
    rewrite run_bind, run_lift, Hrq. by rewrite run_bind, run_lift, Hpr. }
  destruct (py_getitem item "shadowResponse") as [e|sr] eqn:Hsr; [|done].
  unfold _parseLine. rewrite run_bind, run_lift. unfold json_loads_py. rewrite Hitem.
  rewrite run_bind, run_lift, Hrq. rewrite run_bind, run_lift, Hpr.
  by rewrite run_bind, run_lift, Hsr.
Qed.

Lemma run_setattr_pair_mid set h (a b : obj) p (c d : obj) lg :
  setattr_pair (length h + 2) set (mkState (h ++ [a; b; OPair p; c; d]) lg)
  = (inr (), mkState (h ++ [a; b; OPair (set p); c; d]) lg).
Proof. unfold setattr_pair, update. cbn [heap log]. by rewrite alter_app_r. Qed.

Ltac norm :=
  unfold grown; cbn [heap log]; rewrite <- ?app_assoc; cbn [app];
  rewrite ?length_app; cbn [length].

Ltac mstep H := rewrite run_bind, H; cbv beta iota; norm.

Lemma _parseLine_cases line :
  (∃ e, ∀ st, ∃ objs lg, _parseLine line st = (inl e, grown st objs lg)) ∨
  (∃ rq r1 r2 lg, ∀ st,
     _parseLine line st =
       (inr (length (heap st) + 2, length (heap st) + 4)%nat,
        grown st (triple_objects (length (heap st)) rq r1 r2) lg)).
Proof.
  assert (Hfail : ∀ e, (∀ st, _parseLine line st = (inl e, st)) →
    ∃ e, ∀ st, ∃ objs lg, _parseLine line st = (inl e, grown st objs lg)).
  { intros e He. exists e. intros st. exists [], []. by rewrite grown_nil. }
  destruct (json_loads line) as [item|] eqn:Hitem; cycle 1.
  { left. apply (Hfail JSONDecodeError). intros st. by rewrite _parseLine_early, Hitem. }
  destruct (py_getitem item "request") as [e|rq] eqn:Hrq.
  { left. apply (Hfail e). intros st. by rewrite _parseLine_early, Hitem, Hrq. }
  destruct (py_getitem item "primaryResponse") as [e|pr] eqn:Hpr.
  { left. apply (Hfail e). intros st. by rewrite _parseLine_early, Hitem, Hrq, Hpr. }
  destruct (py_getitem item "shadowResponse") as [e|sr] eqn:Hsr.
  { left. apply (Hfail e). intros st. by rewrite _parseLine_early, Hitem, Hrq, Hpr, Hsr. }
  clear Hfail.
  destruct (_parseRequest_cases rq) as [[e He]|(q & lg1 & Hq)].
  { left. exists e. intros st. destruct (He st) as (o & lg & Ho). exists [o], lg.
    rewrite (_parseLine_sections _ _ _ _ _ _ Hitem Hrq Hpr Hsr).
    by rewrite run_bind, Ho. }
  destruct (_parseResponse_cases pr) as [[e He]|(r1 & lg2 & Hr1)].
  { left. exists e. intros st.
    destruct (He (grown st [ORequest q] lg1)) as (o & lg & Ho).
    exists [ORequest q; o], (lg1 ++ lg).
    rewrite (_parseLine_sections _ _ _ _ _ _ Hitem Hrq Hpr Hsr).
    rewrite run_bind, Hq. cbv beta iota. rewrite run_bind, Ho.
    by rewrite grown_grown. }
  destruct (_parseResponse_cases sr) as [[e He]|(r2 & lg3 & Hr2)].
  { left. exists e. intros [h lg0].
    set (p := OPair (RequestResponsePair.mk (length h) (length h + 1) None)).
    destruct (He (mkState (h ++ [ORequest q; OResponse r1; p]) (lg0 ++ lg1 ++ lg2)))
      as (o & lg & Ho).
    exists [ORequest q; OResponse r1; p; o], (lg1 ++ lg2 ++ lg).
    rewrite (_parseLine_sections _ _ _ _ _ _ Hitem Hrq Hpr Hsr).
    mstep Hq. mstep Hr1. mstep run_alloc. subst p. mstep Ho.
    reflexivity. }
  right. exists q, r1, r2, (lg1 ++ lg2 ++ lg3). intros [h lg0].
  rewrite (_parseLine_sections _ _ _ _ _ _ Hitem Hrq Hpr Hsr).
  mstep Hq. mstep Hr1. mstep run_alloc. mstep Hr2. mstep run_alloc.
  rewrite run_bind, run_setattr_pair_mid, run_ret. unfold triple_objects.
  reflexivity.
Qed.

Lemma _parseRequest_fails_at v st e :
  (_parseRequest v st).1 = inl e → fails (_parseRequest v) e.
Proof.
  intros H. destruct (_parseRequest_cases v) as [[e' He]|(r & lg & Hok)].
  - destruct (He st) as (o & lg & Hst). rewrite Hst in H. injection H as <-.
    intros st2. destruct (He st2) as (o2 & lg2 & Hst2). by rewrite Hst2.
  - by rewrite Hok in H.
Qed.

Lemma _parseRequest_succeeds_at v st l :
  (_parseRequest v st).1 = inr l → succeeds (_parseRequest v).
Proof.
  intros H. destruct (_parseRequest_cases v) as [[e' He]|(r & lg & Hok)].
  - destruct (He st) as (o & lg & Hst). by rewrite Hst in H.
  - intros st2. rewrite Hok. by eexists.
Qed.

Lemma _parseResponse_fails_at v st e :
  (_parseResponse v st).1 = inl e → fails (_parseResponse v) e.
Proof.
  intros H. destruct (_parseResponse_cases v) as [[e' He]|(r & lg & Hok)].
  - destruct (He st) as (o & lg & Hst). rewrite Hst in H. injection H as <-.
    intros st2. destruct (He st2) as (o2 & lg2 & Hst2). by rewrite Hst2.
  - by rewrite Hok in H.
Qed.

Lemma _parseResponse_succeeds_at v st l :
  (_parseResponse v st).1 = inr l → succeeds (_parseResponse v).
Proof.
  intros H. destruct (_parseResponse_cases v) as [[e' He]|(r & lg & Hok)].
  - destruct (He st) as (o & lg & Hst). by rewrite Hst in H.
  - intros st2. rewrite Hok. by eexists.
Qed.

Lemma _parseLine_fails_at line st e :
  (_parseLine line st).1 = inl e → fails (_parseLine line) e.
Proof.
  intros H. destruct (_parseLine_cases line) as [[e' He]|(rq & r1 & r2 & lg & Hok)].
  - destruct (He st) as (o & lg & Hst). rewrite Hst in H. injection H as <-.
    intros st2. destruct (He st2) as (o2 & lg2 & Hst2). by rewrite Hst2.
  - by rewrite Hok in H.
Qed.

Lemma _parseLine_succeeds_at line st pairs :
  (_parseLine line st).1 = inr pairs → succeeds (_parseLine line).
Proof.
  intros H. destruct (_parseLine_cases line) as [[e' He]|(rq & r1 & r2 & lg & Hok)].
  - destruct (He st) as (o & lg & Hst). by rewrite Hst in H.
  - intros st2. rewrite Hok. by eexists.
Qed.

(** An exception of the extractor leaves [_parseLine] as it is. *)
Lemma _parseLine_propagates line item requestdata primaryResponseData shadowResponseData e :
  json_loads line = Some item →
  py_getitem item "request" = inr requestdata →
  py_getitem item "primaryResponse" = inr primaryResponseData →
  py_getitem item "shadowResponse" = inr shadowResponseData →
  (fails (_parseRequest requestdata) e → fails (_parseLine line) e) ∧
  (succeeds (_parseRequest requestdata) →
   fails (_parseResponse primaryResponseData) e → fails (_parseLine line) e) ∧
  (succeeds (_parseRequest requestdata) →
   succeeds (_parseResponse primaryResponseData) →
   fails (_parseResponse shadowResponseData) e → fails (_parseLine line) e).
Proof.
  intros Hitem Hrq Hpr Hsr.
  assert (Hrun := λ st, _parseLine_sections _ _ _ _ _ st Hitem Hrq Hpr Hsr).
  split_and!.
  - intros He st. rewrite Hrun, run_bind. specialize (He st).
    by destruct (_parseRequest requestdata st) as [[?|?] ?]; simplify_eq/=.
  - intros Hq He st. rewrite Hrun, run_bind. destruct (Hq st) as [l Hl].
    destruct (_parseRequest requestdata st) as [[?|?] st1]; simplify_eq/=.
    rewrite run_bind. specialize (He st1).
    by destruct (_parseResponse primaryResponseData st1) as [[?|?] ?]; simplify_eq/=.
  - intros Hq Hp He st. rewrite Hrun, run_bind. destruct (Hq st) as [l Hl].
    destruct (_parseRequest requestdata st) as [[?|?] st1]; simplify_eq/=.
    rewrite run_bind. destruct (Hp st1) as [l1 Hl1].
    destruct (_parseResponse primaryResponseData st1) as [[?|?] st2]; simplify_eq/=.
    rewrite run_bind. destruct st2 as [h2 lg2]. rewrite run_alloc. cbv beta iota.
    rewrite run_bind. specialize (He (mkState (h2 ++ [OPair (RequestResponsePair.mk l l1 None)]) lg2)).
    by destruct (_parseResponse shadowResponseData _) as [[?|?] ?]; simplify_eq/=.
Qed.

(** *** What a successful extraction has read *)

Lemma _parseResponse_inv v st l st' :
  _parseResponse v st = (inr l, st') →
  ∃ d rawbody body lg latency status n,
    v = PDict d ∧ d !! "body" = Some rawbody ∧ decode rawbody = inr (body, lg) ∧
    d !! "response_time_ms" = Some latency ∧ d !! "Status-Code" = Some status ∧
    py_int status = inr n ∧ l = length (heap st) ∧
    st' = grown st [OResponse (Response.mk PNone (PInt n)
             (PDict (delete "HTTP-Version" (delete "Reason-Phrase"
                (delete "Status-Code" (delete "response_time_ms" (delete "body" d))))))
             latency body)] lg.
Proof.
  destruct st as [h lg0]. intros H.
  destruct v as [| | | | | |d];
    try (rewrite _parseResponse_nondict in H by done; discriminate H).
  rewrite _parseResponse_dict in H.
  destruct (d !! "body") as [rawbody|] eqn:Hbody; [|done].
  destruct (decode rawbody) as [e|[body lg]] eqn:Hdec; [done|]. cbv zeta in H.
  destruct (d !! "response_time_ms") as [latency|] eqn:Hlat; [|done].
  destruct (d !! "Status-Code") as [status|] eqn:Hstatus; [|done].
  destruct (py_int status) as [e|n] eqn:Hint; [done|].
  injection H as <- <-. by exists d, rawbody, body, lg, latency, status, n.
Qed.

Lemma _parseRequest_inv v st l st' :
  _parseRequest v st = (inr l, st') →
  ∃ d rawbody body lg method target,
    v = PDict d ∧ d !! "body" = Some rawbody ∧ decode rawbody = inr (body, lg) ∧
    d !! "Method" = Some method ∧ d !! "Request-URI" = Some target ∧
    l = length (heap st) ∧
    st' = grown st [ORequest (Request.mk PNone method target
             (PDict (delete "HTTP-Version" (delete "Reason-Phrase"
                (delete "Request-URI" (delete "Method" (delete "body" d))))))
             body)] lg.
Proof.
  destruct st as [h lg0]. intros H.
  destruct v as [| | | | | |d];
    try (rewrite _parseRequest_nondict in H by done; discriminate H).
  rewrite _parseRequest_dict in H.
  destruct (d !! "body") as [rawbody|] eqn:Hbody; [|done].
  destruct (decode rawbody) as [e|[body lg]] eqn:Hdec; [done|]. cbv zeta in H.
  destruct (d !! "Method") as [method|] eqn:Hmethod; [|done].
  destruct (d !! "Request-URI") as [target|] eqn:Huri; [|done].
  injection H as <- <-. by exists d, rawbody, body, lg, method, target.
Qed.

Lemma lookup_grown_new st o lg :
  heap (grown st [o] lg) !! length (heap st) = Some o.
Proof. unfold grown. simpl. by apply list_lookup_middle. Qed.

Lemma _parseLine_inv line st p s st' :
  _parseLine line st = (inr (p, s), st') →
  ∃ rq r1 r2 lg,
    p = (length (heap st) + 2)%nat ∧ s = (length (heap st) + 4)%nat ∧
    st' = grown st (triple_objects (length (heap st)) rq r1 r2) lg.
Proof.
  intros H. destruct (_parseLine_cases line) as [[e He]|(rq & r1 & r2 & lg & Hok)].
  - destruct (He st) as (objs & lg & Hst). congruence.
  - rewrite Hok in H. injection H as <- <- <-. by exists rq, r1, r2, lg.
Qed.

Lemma lookup_triple h rq r1 r2 :
  (h ++ triple_objects (length h) rq r1 r2) !! length h = Some (ORequest rq) ∧
  (h ++ triple_objects (length h) rq r1 r2) !! (length h + 2)%nat
    = Some (OPair (RequestResponsePair.mk (length h) (length h + 1) (Some (length h + 4)%nat))) ∧
  (h ++ triple_objects (length h) rq r1 r2) !! (length h + 4)%nat
    = Some (OPair (RequestResponsePair.mk (length h) (length h + 3) (Some (length h + 2)%nat))).
Proof.
  unfold triple_objects. split_and!.
  - by apply list_lookup_middle.
  - rewrite lookup_app_r by lia. by replace (length h + 2 - length h)%nat with 2%nat by lia.
  - rewrite lookup_app_r by lia. by replace (length h + 4 - length h)%nat with 4%nat by lia.
Qed.

Lemma _parseLine_linked line st primaryPair shadowPair st' :
  _parseLine line st = (inr (primaryPair, shadowPair), st') →
  linked (heap st') primaryPair shadowPair.
Proof.
  intros H. apply _parseLine_inv in H as (rq & r1 & r2 & lg & -> & -> & ->).
  destruct (lookup_triple (heap st) rq r1 r2) as (Hrq & Hp & Hs).
  eexists _, _, rq. unfold grown. cbn [heap].
  split_and!; [exact Hp|exact Hs|lia|done|done|done|exact Hrq].
Qed.

(** ** The claims *)

(** C1. For a line that [_parseLine] parses, the two returned objects are
    distinct [RequestResponsePair]s, each the other's [corresponding_pair],
    and their [request] attributes are one and the same [Request] object:
    the same location of the heap, not only equal contents. *)
Theorem parseLine_pairs_are_linked line st primaryPair shadowPair st' :
  _parseLine line st = (inr (primaryPair, shadowPair), st') →
  ∃ p s rq,
    heap st' !! primaryPair = Some (OPair p) ∧
    heap st' !! shadowPair = Some (OPair s) ∧
    primaryPair ≠ shadowPair ∧
    RequestResponsePair.corresponding_pair p = Some shadowPair ∧
    RequestResponsePair.corresponding_pair s = Some primaryPair ∧
    RequestResponsePair.request p = RequestResponsePair.request s ∧
    heap st' !! RequestResponsePair.request p = Some (ORequest rq).
Proof. apply _parseLine_linked. Qed.

Lemma decode_str rawbody :
  decode (PStr rawbody) =
    inr match json_loads rawbody with
        | Some v => (v, [])
        | None => (PStr rawbody, [Debug_body_not_json (PStr rawbody)])
        end.
Proof. unfold decode, json_loads_py. by destruct (json_loads rawbody). Qed.

(** C3. Body decoding of a raw string: when the string is a JSON document
    the decoded value is returned and the state is untouched; otherwise
    the raw string itself is returned, nothing is raised and only a debug
    record is logged. The empty string, which no decoder accepts, stays the
    empty string. The [body] of a parsed [Request] and of a parsed
    [Response] is this decoding of the record's [body] string. *)
Theorem body_is_json_or_raw rawbody :
  json_loads "" = None →
  (∀ st, _parseBodyAsJson (PStr rawbody) st =
     match json_loads rawbody with
     | Some v => (inr v, st)
     | None => (inr (PStr rawbody), grown st [] [Debug_body_not_json (PStr rawbody)])
     end) ∧
  (∀ st, (_parseBodyAsJson (PStr "") st).1 = inr (PStr "")) ∧
  (∀ d st l st', d !! "body" = Some (PStr rawbody) →
     _parseRequest (PDict d) st = (inr l, st') →
     ∃ r, heap st' !! l = Some (ORequest r) ∧
          Request.body r = default (PStr rawbody) (json_loads rawbody)) ∧
  (∀ d st l st', d !! "body" = Some (PStr rawbody) →
     _parseResponse (PDict d) st = (inr l, st') →
     ∃ r, heap st' !! l = Some (OResponse r) ∧
          Response.body r = default (PStr rawbody) (json_loads rawbody)).
Proof.
  intros Hempty. split_and!.
  - intros st. rewrite _parseBodyAsJson_decode, decode_str.
    destruct (json_loads rawbody); [|done]. by rewrite grown_nil.
  - intros st. rewrite _parseBodyAsJson_decode, decode_str. by rewrite Hempty.
  - intros d st l st' Hbody H.
    apply _parseRequest_inv in H
      as (d' & raw & body & lg & method & target & [= <-] & Hraw & Hdec & _ & _ & -> & ->).
    rewrite Hbody in Hraw. injection Hraw as <-. rewrite decode_str in Hdec.
    eexists. split; [apply lookup_grown_new|]. simpl.
    destruct (json_loads rawbody); by injection Hdec as <- _.
  - intros d st l st' Hbody H.
    apply _parseResponse_inv in H
      as (d' & raw & body & lg & latency & status & n & [= <-] & Hraw & Hdec & _ & _ & _ & -> & ->).
    rewrite Hbody in Hraw. injection Hraw as <-. rewrite decode_str in Hdec.
    eexists. split; [apply lookup_grown_new|]. simpl.
    destruct (json_loads rawbody); by injection Hdec as <- _.
Qed.

(** C4. The headers of a parsed [Request] or [Response] have no entry
    under [Reason-Phrase] or [HTTP-Version], whatever the input record
    holds. *)
Theorem ignored_fields_never_in_headers v st l st' :
  (_parseRequest v st = (inr l, st') →
   ∃ r hd, heap st' !! l = Some (ORequest r) ∧ Request.headers r = PDict hd ∧
           Forall (λ field, hd !! field = None) ignored_fields) ∧
  (_parseResponse v st = (inr l, st') →
   ∃ r hd, heap st' !! l = Some (OResponse r) ∧ Response.headers r = PDict hd ∧
           Forall (λ field, hd !! field = None) ignored_fields).
Proof.
  split; intros H.
  - apply _parseRequest_inv in H
      as (d & raw & body & lg & method & target & -> & _ & _ & _ & _ & -> & ->).
    eexists _, _. split; [apply lookup_grown_new|]. split; [done|].
    repeat constructor.
    + by rewrite lookup_delete_ne, lookup_delete_eq.
    + by rewrite lookup_delete_eq.
  - apply _parseResponse_inv in H
      as (d & raw & body & lg & latency & status & n & -> & _ & _ & _ & _ & _ & -> & ->).
    eexists _, _. split; [apply lookup_grown_new|]. split; [done|].
    repeat constructor.
    + by rewrite lookup_delete_ne, lookup_delete_eq.
    + by rewrite lookup_delete_eq.
Qed.

(** C5. Every field of the input record whose key is neither a known field
    ([body], [Method], [Request-URI] for a request; [body],
    [response_time_ms], [Status-Code] for a response) nor a discarded one is
    in the headers under the same key with the same value, and the headers
    have nothing else under such a key: the look-ups agree, and keys are
    compared as they are, without any case folding. *)
Theorem other_fields_are_headers (d : gmap string pyval) st l st' field :
  field ∉ ignored_fields →
  (field ∉ ["body"; "Method"; "Request-URI"] →
   _parseRequest (PDict d) st = (inr l, st') →
   ∃ r hd, heap st' !! l = Some (ORequest r) ∧ Request.headers r = PDict hd ∧
           hd !! field = d !! field) ∧
  (field ∉ ["body"; "response_time_ms"; "Status-Code"] →
   _parseResponse (PDict d) st = (inr l, st') →
   ∃ r hd, heap st' !! l = Some (OResponse r) ∧ Response.headers r = PDict hd ∧
           hd !! field = d !! field).
Proof.
  unfold ignored_fields. intros Hign. split; intros Hknown H.
  - apply _parseRequest_inv in H
      as (d' & raw & body & lg & method & target & [= <-] & _ & _ & _ & _ & -> & ->).
    eexists _, _. split; [apply lookup_grown_new|]. split; [done|].
    apply not_elem_of_cons in Hign as (? & (? & _)%not_elem_of_cons).
    apply not_elem_of_cons in Hknown
      as (? & (? & (? & _)%not_elem_of_cons)%not_elem_of_cons).
    by rewrite !lookup_delete_ne by congruence.
  - apply _parseResponse_inv in H
      as (d' & raw & body & lg & latency & status & n & [= <-] & _ & _ & _ & _ & _ & -> & ->).
    eexists _, _. split; [apply lookup_grown_new|]. split; [done|].
    apply not_elem_of_cons in Hign as (? & (? & _)%not_elem_of_cons).
    apply not_elem_of_cons in Hknown
      as (? & (? & (? & _)%not_elem_of_cons)%not_elem_of_cons).
    by rewrite !lookup_delete_ne by congruence.
Qed.

(** C6. A line that decodes to a JSON object without one of the sections
    [request], [primaryResponse], [shadowResponse] makes [_parseLine] raise
    the [KeyError] that names a missing section (the first one missing, in
    that order) and nothing else happens: no object is created, nothing is
    logged. *)
Theorem missing_section_is_KeyError line (item : gmap string pyval) section st :
  json_loads line = Some (PDict item) →
  section ∈ sections →
  item !! section = None →
  ∃ first,
    first_missing sections item = Some first ∧ first ∈ sections ∧
    item !! first = None ∧
    _parseLine line st = (inl (KeyError first), st).
Proof.
  intros Hitem Hin Hmiss. rewrite _parseLine_early, Hitem.
  unfold first_missing, sections in *. cbn [List.find py_getitem] in *.
  case_bool_decide as H1.
  { exists "request". rewrite H1. split_and!; [done|repeat constructor|done|done]. }
  destruct (item !! "request") as [rq|] eqn:Hrq; [|done].
  case_bool_decide as H2.
  { exists "primaryResponse". rewrite H2. split_and!; [done|repeat constructor|done|done]. }
  destruct (item !! "primaryResponse") as [pr|] eqn:Hpr; [|done].
  case_bool_decide as H3.
  { exists "shadowResponse". rewrite H3. split_and!; [done|repeat constructor|done|done]. }
  rewrite !elem_of_cons, elem_of_nil in Hin.
  destruct Hin as [->|[->|[->|[]]]]; congruence.
Qed.

Lemma load_line_error file_path i line streams st e st' :
  _parseLine line st = (inl e, st') →
  load_line file_path (i, line) streams st
  = (inr streams, mkState (heap st') (log st' ++ [Info_line_error i file_path e])).
Proof.
  intros H. destruct streams as [primaryPairs shadowPairs]. unfold load_line, try_except.
  rewrite run_bind, H. cbn. by destruct st'.
Qed.

Lemma load_line_parsed file_path i line primaryPairs shadowPairs st p s st' :
  _parseLine line st = (inr (p, s), st') →
  load_line file_path (i, line) (primaryPairs, shadowPairs) st
  = (inr (primaryPairs ++ [p], shadowPairs ++ [s]), st').
Proof. intros H. unfold load_line, try_except. by rewrite run_bind, H. Qed.

(** C9. When [_parseLine] raises on the line the generator of
    [load_from_stdin] is resumed for, [next] raises that exception to the
    consumer and the generator is finished; the state is the one the parser
    left, so the loader has logged nothing. The loop body of the batch
    loader, on the same line, returns normally with the streams unchanged
    and logs the error. *)
Theorem stdin_errors_propagate line stdin st e st' :
  _parseLine line st = (inl e, st') →
  next (load_from_stdin (line :: stdin)) st = (inl e, Finished, st') ∧
  ∀ file_path i streams,
    load_line file_path (i, line) streams st
    = (inr streams, mkState (heap st') (log st' ++ [Info_line_error i file_path e])).
Proof.
  intros H. split.
  - unfold load_from_stdin, next. by rewrite H.
  - intros file_path i streams. by apply load_line_error.
Qed.

(** *** Numerals *)

Lemma digit_not_space a : is_digit a = true → is_int_space a = false.
Proof.
  unfold is_digit, digit_of, is_int_space.
  destruct (nat_of_ascii a) as [|n] eqn:Hn; [done|].
  do 48 (destruct n as [|n]; [done|]).
  do 10 (destruct n as [|n]; [done|]).
  done.
Qed.

Lemma lstrip_digit a s : is_digit a = true → lstrip (a :: s) = a :: s.
Proof. intros H. simpl. by rewrite (digit_not_space a H). Qed.

Lemma strip_digits s :
  Forall (λ a, is_digit a = true) s → strip s = s.
Proof.
  intros Hs. unfold strip. destruct s as [|a s]; [done|].
  rewrite lstrip_digit by by inversion Hs.
  destruct (rev (a :: s)) as [|b t] eqn:Hrev.
  { apply (f_equal length) in Hrev. rewrite length_rev in Hrev. done. }
  rewrite lstrip_digit.
  - by rewrite <- Hrev, rev_involutive.
  - apply Forall_rev in Hs. rewrite Hrev in Hs. by inversion Hs.
Qed.

Lemma read_digits_all s : ∀ after_digit acc,
  Forall (λ a, is_digit a = true) s →
  s ≠ [] ∨ after_digit = true →
  read_digits after_digit acc s
  = Some (fold_left (λ acc a, 10 * acc + default 0 (digit_of a)) s acc)%Z.
Proof.
  induction s as [|a s IH]; intros after_digit acc Hs Hne.
  - destruct Hne as [Hne|Hne]; [done|]. by rewrite Hne.
  - inversion Hs as [|? ? Ha Hs']; subst. simpl.
    unfold is_digit in Ha. destruct (digit_of a) as [x|]; [|done].
    simpl. apply IH; [done|by right].
Qed.

Lemma int_of_str_numeral s :
  is_numeral s → int_of_str s = Some (numeral_value s).
Proof.
  intros [Hne Hs]. unfold int_of_str, numeral_value.
  rewrite strip_digits by done.
  destruct (String.list_ascii_of_string s) as [|a l] eqn:Hl.
  { destruct s; done. }
  assert (Ha : is_digit a = true) by by inversion Hs.
  assert (Ascii.eqb a "-" = false ∧ Ascii.eqb a "+" = false) as [-> ->].
  { split; apply Ascii.eqb_neq; intros ->; done. }
  apply read_digits_all; [done|by left].
Qed.

Lemma missing_request_field (d : gmap string pyval) field :
  str_or_absent (d !! "body") = true →
  first_missing request_fields d = Some field →
  fails (_parseRequest (PDict d)) (KeyError field).
Proof.
  intros Hstr Hfield [h lg]. rewrite _parseRequest_dict.
  unfold first_missing, request_fields in Hfield. cbn [List.find] in Hfield.
  case_bool_decide as Hbody.
  { injection Hfield as <-. by rewrite Hbody. }
  destruct (d !! "body") as [[| | | |s| |]|] eqn:Hv; try done. rewrite decode_str.
  destruct (json_loads s); cbv zeta beta iota;
    (case_bool_decide as Hmethod; [injection Hfield as <-; by rewrite Hmethod|]);
    (destruct (d !! "Method"); [|done]);
    (case_bool_decide as Huri; [|done]);
    injection Hfield as <-; by rewrite Huri.
Qed.

Lemma missing_response_field (d : gmap string pyval) field :
  str_or_absent (d !! "body") = true →
  first_missing response_fields d = Some field →
  fails (_parseResponse (PDict d)) (KeyError field).
Proof.
  intros Hstr Hfield [h lg]. rewrite _parseResponse_dict.
  unfold first_missing, response_fields in Hfield. cbn [List.find] in Hfield.
  case_bool_decide as Hbody.
  { injection Hfield as <-. by rewrite Hbody. }
  destruct (d !! "body") as [[| | | |s| |]|] eqn:Hv; try done. rewrite decode_str.
  destruct (json_loads s); cbv zeta beta iota;
    (case_bool_decide as Hlat; [injection Hfield as <-; by rewrite Hlat|]);
    (destruct (d !! "response_time_ms"); [|done]);
    (case_bool_decide as Hstatus; [|done]);
    injection Hfield as <-; by rewrite Hstatus.
Qed.

(** C7 (amended). A record, request or response, whose [body] is a string
    when it has one and that lacks a required field makes the extractor
    raise a [KeyError] carrying the name of that field (the first one
    missing in the order the fields are popped) and nothing about the kind
    of record; the extractor does not catch it, and [_parseLine] raises the
    same exception when the record is a section of its line and the
    sections before it convert. *)
Theorem missing_field_is_KeyError (d : gmap string pyval) field :
  str_or_absent (d !! "body") = true →
  (first_missing request_fields d = Some field →
   fails (_parseRequest (PDict d)) (KeyError field)) ∧
  (first_missing response_fields d = Some field →
   fails (_parseResponse (PDict d)) (KeyError field)) ∧
  (∀ line item requestdata primaryResponseData shadowResponseData,
     json_loads line = Some item →
     py_getitem item "request" = inr requestdata →
     py_getitem item "primaryResponse" = inr primaryResponseData →
     py_getitem item "shadowResponse" = inr shadowResponseData →
     (requestdata = PDict d →
      first_missing request_fields d = Some field →
      fails (_parseLine line) (KeyError field)) ∧
     (primaryResponseData = PDict d →
      succeeds (_parseRequest requestdata) →
      first_missing response_fields d = Some field →
      fails (_parseLine line) (KeyError field)) ∧
     (shadowResponseData = PDict d →
      succeeds (_parseRequest requestdata) →
      succeeds (_parseResponse primaryResponseData) →
      first_missing response_fields d = Some field →
      fails (_parseLine line) (KeyError field))).
Proof.
  intros Hstr. split_and!.
  - by apply missing_request_field.
  - by apply missing_response_field.
  - intros line item rq pr sr Hitem Hrq Hpr Hsr.
    destruct (_parseLine_propagates line item rq pr sr (KeyError field) Hitem Hrq Hpr Hsr)
      as (Hq & Hp & Hs).
    split_and!.
    + intros -> Hfield. by apply Hq, missing_request_field.
    + intros -> Hok Hfield. by apply Hp, missing_response_field.
    + intros -> Hok1 Hok2 Hfield. by apply Hs, missing_response_field.
Qed.

Lemma _parseResponse_status (d : gmap string pyval) rawbody latency status :
  d !! "body" = Some (PStr rawbody) →
  d !! "response_time_ms" = Some latency →
  d !! "Status-Code" = Some status →
  match py_int status with
  | inr n =>
      ∀ st, ∃ l st' r,
        _parseResponse (PDict d) st = (inr l, st') ∧
        heap st' !! l = Some (OResponse r) ∧ Response.statuscode r = PInt n
  | inl e => fails (_parseResponse (PDict d)) e
  end.
Proof.
  intros Hbody Hlat Hstatus.
  destruct (py_int status) as [e|n] eqn:Hint.
  - intros [h lg]. rewrite _parseResponse_dict, Hbody, decode_str.
    destruct (json_loads rawbody); cbv zeta beta iota; by rewrite Hlat, Hstatus, Hint.
  - intros [h lg]. rewrite _parseResponse_dict, Hbody, decode_str.
    destruct (json_loads rawbody); cbv zeta beta iota; rewrite Hlat, Hstatus, Hint;
      eexists _, _, _; (split; [done|]); cbn [heap];
      (split; [by apply list_lookup_middle|done]).
Qed.

(** C8 (amended). For a response record with a string [body], a
    [response_time_ms] and a [Status-Code], the [statuscode] is
    [int(Status-Code)]: an integer is kept, [true] and [false] become 1
    and 0, a finite float is truncated toward zero, a string that [int]
    reads (in particular every decimal numeral) becomes its number. Any
    other value makes the extractor fail: another string or a NaN with
    [ValueError], an infinity with [OverflowError], [None], a list or a
    dict with [TypeError]. *)
Theorem statuscode_is_int_of_field (d : gmap string pyval) rawbody latency status :
  d !! "body" = Some (PStr rawbody) →
  d !! "response_time_ms" = Some latency →
  d !! "Status-Code" = Some status →
  let converts (n : Z) :=
    ∀ st, ∃ l st' r,
      _parseResponse (PDict d) st = (inr l, st') ∧
      heap st' !! l = Some (OResponse r) ∧ Response.statuscode r = PInt n in
  match status with
  | PInt n => converts n
  | PBool b => converts (if b then 1 else 0)%Z
  | PFloat (FFinite m e) => converts (float_trunc m e)
  | PFloat FNan => fails (_parseResponse (PDict d)) ValueError
  | PFloat (FInf _) => fails (_parseResponse (PDict d)) OverflowError
  | PStr s =>
      (is_numeral s → converts (numeral_value s)) ∧
      match int_of_str s with
      | Some n => converts n
      | None => fails (_parseResponse (PDict d)) ValueError
      end
  | PNone | PList _ | PDict _ => fails (_parseResponse (PDict d)) TypeError
  end.
Proof.
  intros Hbody Hlat Hstatus converts.
  pose proof (_parseResponse_status d rawbody latency status Hbody Hlat Hstatus) as H.
  destruct status as [|b|n|[|neg|m e]|s|l|d']; try exact H.
  cbn [py_int] in H. split.
  - intros Hnum. by rewrite (int_of_str_numeral s Hnum) in H.
  - by destruct (int_of_str s).
Qed.

(** C10. The value of [response_time_ms] becomes the [latency] of the
    parsed response as it is, whatever value it is; replacing it by any
    other value changes neither whether the record converts nor the
    exception raised. A [Status-Code] that [int] does not read, on the
    other hand, makes the conversion of an otherwise convertible record
    fail. *)
Theorem latency_is_stored_verbatim (d : gmap string pyval) latency st :
  d !! "response_time_ms" = Some latency →
  (∀ l st', _parseResponse (PDict d) st = (inr l, st') →
     ∃ r, heap st' !! l = Some (OResponse r) ∧ Response.latency r = latency) ∧
  (∀ other,
     (_parseResponse (PDict (<["response_time_ms" := other]> d)) st).1
     = (_parseResponse (PDict d) st).1 ∧
     ∀ l st', _parseResponse (PDict (<["response_time_ms" := other]> d)) st = (inr l, st') →
       ∃ r, heap st' !! l = Some (OResponse r) ∧ Response.latency r = other) ∧
  (∀ l, (_parseResponse (PDict d) st).1 = inr l →
     (_parseResponse (PDict (<["Status-Code" := PStr "OK"]> d)) st).1 = inl ValueError).
Proof.
  intros Hlat.
  assert (Hstored : ∀ (d0 : gmap string pyval) x l st',
    d0 !! "response_time_ms" = Some x →
    _parseResponse (PDict d0) st = (inr l, st') →
    ∃ r, heap st' !! l = Some (OResponse r) ∧ Response.latency r = x).
  { intros d0 x l st' Hx H.
    apply _parseResponse_inv in H
      as (d' & raw & body & lg & lat & status & n & [= <-] & _ & _ & Hl & _ & _ & -> & ->).
    rewrite Hx in Hl. injection Hl as <-.
    eexists. split; [apply lookup_grown_new|done]. }
  split_and!.
  - intros l st'. by apply Hstored.
  - intros other. split.
    + destruct st as [h lg]. rewrite !_parseResponse_dict.
      rewrite lookup_insert_eq, !lookup_insert_ne, Hlat by done.
      destruct (d !! "body") as [raw|]; [|done].
      destruct (decode raw) as [e|[body lg']]; [done|]. cbv zeta.
      destruct (d !! "Status-Code") as [status|]; [|done].
      by destruct (py_int status).
    + intros l st'. apply Hstored. by rewrite lookup_insert_eq.
  - intros l Hok. destruct st as [h lg]. rewrite _parseResponse_dict in *.
    rewrite lookup_insert_eq, !lookup_insert_ne by done.
    destruct (d !! "body") as [raw|]; [|done].
    destruct (decode raw) as [e|[body lg']]; [done|]. cbv zeta in *.
    by rewrite Hlat.
Qed.

(** *** The batch loader *)

Lemma parses_true line st :
  parses line = true → ∃ pairs st', _parseLine line st = (inr pairs, st').
Proof.
  unfold parses. intros H.
  destruct (_parseLine line init).1 as [e|pairs] eqn:Hinit; [done|].
  destruct (_parseLine_succeeds_at line init pairs Hinit st) as [a Ha].
  destruct (_parseLine line st) as [r st'] eqn:Hst. simpl in Ha. subst r. by eexists _, _.
Qed.

Lemma parses_false line st :
  parses line = false → ∃ e st', _parseLine line st = (inl e, st').
Proof.
  unfold parses. intros H.
  destruct (_parseLine line init).1 as [e|pairs] eqn:Hinit; [|done].
  pose proof (_parseLine_fails_at line init e Hinit st) as Ha.
  destruct (_parseLine line st) as [r st'] eqn:Hst. simpl in Ha. subst r. by eexists _, _.
Qed.

Lemma parses_of_run line st :
  parses line = match (_parseLine line st).1 with inr _ => true | inl _ => false end.
Proof.
  destruct (parses line) eqn:Hp.
  - destruct (parses_true line st Hp) as (pairs & st' & ->). done.
  - destruct (parses_false line st Hp) as (e & st' & ->). done.
Qed.

Lemma _parseLine_grows line st r st' :
  _parseLine line st = (r, st') → heap st `prefix_of` heap st'.
Proof.
  intros H. destruct (_parseLine_cases line) as [[e He]|(rq & r1 & r2 & lg & Hok)].
  - destruct (He st) as (objs & lg & Hst). rewrite Hst in H. injection H as _ <-.
    by apply prefix_app_r.
  - rewrite Hok in H. injection H as _ <-. by apply prefix_app_r.
Qed.

Lemma from_line_mono h h' line p s :
  h `prefix_of` h' → from_line h line p s → from_line h' line p s.
Proof.
  intros Hh (st & st' & Hrun & Hpre). exists st, st'. split; [done|]. by etrans.
Qed.

Lemma linked_mono h h' p s :
  h `prefix_of` h' → linked h p s → linked h' p s.
Proof.
  intros Hh (pp & sp & rq & Hp & Hs & Hne & Hps & Hsp & Hreq & Hrq).
  exists pp, sp, rq. split_and!; try done; by eapply prefix_lookup_Some.
Qed.

Lemma from_line_linked h line p s : from_line h line p s → linked h p s.
Proof.
  intros (st & st' & Hrun & Hpre). eapply linked_mono; [done|].
  by eapply _parseLine_linked.
Qed.

Lemma load_lines file_path lines : ∀ i primaryPairs shadowPairs st,
  ∃ ps ss st',
    for_in (enumerate_from i lines) (load_line file_path) (primaryPairs, shadowPairs) st
    = (inr (primaryPairs ++ ps, shadowPairs ++ ss), st') ∧
    heap st `prefix_of` heap st' ∧
    Forall3 (from_line (heap st')) (List.filter parses lines) ps ss.
Proof.
  induction lines as [|line lines IH]; intros i primaryPairs shadowPairs st.
  { exists [], [], st. rewrite !app_nil_r. split_and!; [done|done|constructor]. }
  cbn [enumerate_from List.filter]. rewrite for_in_cons, run_bind.
  rewrite (parses_of_run line st).
  destruct (_parseLine line st) as [[e|[p s]] st1] eqn:Hline; cbn [fst].
  - rewrite (load_line_error _ _ _ _ _ _ _ Hline).
    destruct (IH (S i) primaryPairs shadowPairs
                (mkState (heap st1) (log st1 ++ [Info_line_error i file_path e])))
      as (ps & ss & st' & Hrun & Hpre & Hall).
    exists ps, ss, st'. split_and!; [done| |done].
    etrans; [by eapply _parseLine_grows|done].
  - rewrite (load_line_parsed _ _ _ _ _ _ _ _ _ Hline).
    destruct (IH (S i) (primaryPairs ++ [p]) (shadowPairs ++ [s]) st1)
      as (ps & ss & st' & Hrun & Hpre & Hall).
    exists (p :: ps), (s :: ss), st'. split_and!.
    + rewrite Hrun. by rewrite <- !app_assoc.
    + etrans; [by eapply _parseLine_grows|done].
    + constructor; [|done]. by exists st, st1.
Qed.

Lemma load_file_run file_path lines primaryPairs shadowPairs st :
  fs !! file_path = Some lines →
  ∃ ps ss st',
    load_file file_path (primaryPairs, shadowPairs) st
    = (inr (primaryPairs ++ ps, shadowPairs ++ ss), st') ∧
    heap st `prefix_of` heap st' ∧
    Forall3 (from_line (heap st')) (List.filter parses lines) ps ss.
Proof.
  intros Hfile. unfold load_file, open_file. rewrite Hfile, run_bind, run_lift.
  cbv beta iota. rewrite run_bind. unfold enumerate.
  destruct (load_lines file_path lines 0 primaryPairs shadowPairs st)
    as (ps & ss & [h lg] & Hrun & Hpre & Hall).
  rewrite Hrun. cbv beta iota. rewrite run_bind, run_logger, run_ret.
  by eexists ps, ss, _.
Qed.

Lemma load_files paths : ∀ files primaryPairs shadowPairs st,
  Forall2 (λ file_path lines, fs !! file_path = Some lines) paths files →
  ∃ ps ss st',
    for_in paths load_file (primaryPairs, shadowPairs) st
    = (inr (primaryPairs ++ ps, shadowPairs ++ ss), st') ∧
    heap st `prefix_of` heap st' ∧
    Forall3 (from_line (heap st')) (List.filter parses (concat files)) ps ss.
Proof.
  induction paths as [|file_path paths IH]; intros files primaryPairs shadowPairs st Hfiles.
  { apply Forall2_nil_inv_l in Hfiles as ->.
    exists [], [], st. rewrite !app_nil_r. split_and!; [done|done|constructor]. }
  apply Forall2_cons_inv_l in Hfiles as (lines & files' & Hfile & Hfiles & ->).
  rewrite for_in_cons, run_bind.
  destruct (load_file_run file_path lines primaryPairs shadowPairs st Hfile)
    as (ps1 & ss1 & st1 & Hrun1 & Hpre1 & Hall1).
  rewrite Hrun1.
  destruct (IH files' (primaryPairs ++ ps1) (shadowPairs ++ ss1) st1 Hfiles)
    as (ps2 & ss2 & st2 & Hrun2 & Hpre2 & Hall2).
  exists (ps1 ++ ps2), (ss1 ++ ss2), st2. split_and!.
  - rewrite Hrun2. by rewrite <- !app_assoc.
  - by etrans.
  - cbn [concat]. rewrite List.filter_app. apply Forall3_app; [|done].
    eapply Forall3_impl; [done|]. intros line p s. by apply from_line_mono.
Qed.

(** C2. Batch mode. A line on which [_parseLine] raises adds nothing to
    either stream: the loop body returns normally with the streams as they
    were, after logging the error with the path and the line number, and the
    loop goes on with the next line. When every file can be opened, [load]
    returns two streams of the same length, the number of valid lines of
    all the files; the pairs at index [i] of the two streams are the ones
    [_parseLine] returned for the [i]-th valid line, and each is the
    other's [corresponding_pair]. *)
Theorem load_streams_are_parallel log_file_paths files st :
  mapM (λ file_path, fs !! file_path) log_file_paths = Some files →
  (∀ file_path i line lines streams st0 e st1,
     _parseLine line st0 = (inl e, st1) →
     for_in (enumerate_from i (line :: lines)) (load_line file_path) streams st0
     = for_in (enumerate_from (S i) lines) (load_line file_path) streams
         (mkState (heap st1) (log st1 ++ [Info_line_error i file_path e]))) ∧
  ∃ primaryPairs shadowPairs st',
    load log_file_paths st = (inr (primaryPairs, shadowPairs), st') ∧
    length primaryPairs = length (List.filter parses (concat files)) ∧
    length shadowPairs = length (List.filter parses (concat files)) ∧
    ∀ i p s,
      primaryPairs !! i = Some p → shadowPairs !! i = Some s →
      linked (heap st') p s ∧
      ∃ line, List.filter parses (concat files) !! i = Some line ∧
              from_line (heap st') line p s.
Proof.
  intros Hfiles. split.
  { intros file_path i line lines streams st0 e st1 Hline.
    cbn [enumerate_from]. rewrite for_in_cons.
    change ((acc' ← load_line file_path (i, line) streams;
             for_in (enumerate_from (S i) lines) (load_line file_path) acc') st0 = 
            for_in (enumerate_from (S i) lines) (load_line file_path) streams
              (mkState (heap st1) (log st1 ++ [Info_line_error i file_path e]))).
    rewrite run_bind. by rewrite (load_line_error _ _ _ _ _ _ _ Hline). }
  apply mapM_Some in Hfiles.
  destruct (load_files log_file_paths files [] [] st Hfiles)
    as (ps & ss & st' & Hrun & Hpre & Hall).
  exists ps, ss, st'. split_and!.
  - exact Hrun.
  - symmetry. by eapply Forall3_length_lm.
  - symmetry. by eapply Forall3_length_lr.
  - intros i p s Hp Hs.
    destruct (Forall3_lookup_m _ _ _ _ _ _ Hall Hp) as (line & s' & Hline & Hs' & Hfrom).
    rewrite Hs in Hs'. injection Hs' as <-.
    split; [by eapply from_line_linked|]. by exists line.
Qed.

(** ** Further properties of the extractor and of the triple parser *)

Lemma decode_error rawbody e : decode rawbody = inl e → e = TypeError.
Proof.
  unfold decode, json_loads_py.
  destruct rawbody; try (by intros [= <-]).
  by destruct (json_loads s).
Qed.

Lemma decode_string rawbody :
  is_string rawbody = true → ∃ body lg, decode rawbody = inr (body, lg).
Proof.
  destruct rawbody as [| | | |s| |]; try done. intros _.
  rewrite decode_str. destruct (json_loads s); by eexists _, _.
Qed.

Lemma decode_not_string rawbody :
  is_string rawbody = false → decode rawbody = inl TypeError.
Proof. by destruct rawbody. Qed.

Lemma py_int_error v e :
  py_int v = inl e → e = ValueError ∨ e = TypeError ∨ e = OverflowError.
Proof.
  destruct v as [| | |[| |]|s| |]; simpl; try (intros [= <-]; auto).
  destruct (int_of_str s); intros [= <-]; auto.
Qed.

Lemma _parseRequest_error v st e st' :
  _parseRequest v st = (inl e, st') →
  e = TypeError ∨ e = AttributeError ∨ ∃ field, field ∈ request_fields ∧ e = KeyError field.
Proof.
  destruct st as [h lg0].
  assert (Hfield : ∀ field, field ∈ request_fields →
    e = KeyError field →
    e = TypeError ∨ e = AttributeError ∨ ∃ field, field ∈ request_fields ∧ e = KeyError field).
  { intros field Hin ->. right. right. by exists field. }
  destruct v as [| | | | |l|d];
    try (rewrite _parseRequest_nondict by done; intros [= <- _]; auto).
  rewrite _parseRequest_dict.
  destruct (d !! "body") as [rawbody|].
  2:{ intros [= <- _]. apply (Hfield "body"); [repeat constructor|done]. }
  destruct (decode rawbody) as [e'|[body lg]] eqn:Hdec.
  { intros [= <- _]. left. by eapply decode_error. }
  cbv zeta. destruct (d !! "Method") as [method|].
  2:{ intros [= <- _]. apply (Hfield "Method"); [repeat constructor|done]. }
  destruct (d !! "Request-URI") as [target|]; [done|].
  intros [= <- _]. apply (Hfield "Request-URI"); [repeat constructor|done].
Qed.

Lemma _parseResponse_error v st e st' :
  _parseResponse v st = (inl e, st') →
  e = TypeError ∨ e = AttributeError ∨ e = ValueError ∨ e = OverflowError ∨
  ∃ field, field ∈ response_fields ∧ e = KeyError field.
Proof.
  destruct st as [h lg0].
  assert (Hfield : ∀ field, field ∈ response_fields →
    e = KeyError field →
    e = TypeError ∨ e = AttributeError ∨ e = ValueError ∨ e = OverflowError ∨
    ∃ field, field ∈ response_fields ∧ e = KeyError field).
  { intros field Hin ->. do 4 right. by exists field. }
  destruct v as [| | | | |l|d];
    try (rewrite _parseResponse_nondict by done; intros [= <- _]; auto).
  rewrite _parseResponse_dict.
  destruct (d !! "body") as [rawbody|].
  2:{ intros [= <- _]. apply (Hfield "body"); [repeat constructor|done]. }
  destruct (decode rawbody) as [e'|[body lg]] eqn:Hdec.
  { intros [= <- _]. left. by eapply decode_error. }
  cbv zeta. destruct (d !! "response_time_ms") as [latency|].
  2:{ intros [= <- _]. apply (Hfield "response_time_ms"); [repeat constructor|done]. }
  destruct (d !! "Status-Code") as [status|].
  2:{ intros [= <- _]. apply (Hfield "Status-Code"); [repeat constructor|done]. }
  destruct (py_int status) as [e'|n] eqn:Hint; [|done].
  intros [= <- _]. destruct (py_int_error _ _ Hint) as [-> | [-> | ->]]; auto.
Qed.

Lemma py_getitem_error v key e :
  py_getitem v key = inl e → e = TypeError ∨ e = KeyError key.
Proof.
  destruct v as [| | | | | |d]; simpl; try (intros [= <-]; auto).
  destruct (d !! key); [done|]. intros [= <-]. auto.
Qed.

(** X3. The exceptions of [_parseLine]. A line that is no JSON document
    raises [JSONDecodeError] before anything is allocated or logged, and
    this is the only way [JSONDecodeError] leaves [_parseLine]: a body that
    does not decode never raises. A [KeyError] names a section or a
    required field; [StopIteration] and the error of [open] never occur. *)
Theorem parseLine_exceptions line st :
  (json_loads line = None → _parseLine line st = (inl JSONDecodeError, st)) ∧
  ∀ e st', _parseLine line st = (inl e, st') →
    match e with
    | JSONDecodeError => json_loads line = None ∧ st' = st
    | KeyError key => key ∈ sections ++ request_fields ++ response_fields
    | TypeError | AttributeError | ValueError | OverflowError => True
    | StopIteration | FileNotFoundError _ => False
    end.
Proof.
  split.
  { intros Hline. by rewrite _parseLine_early, Hline. }
  intros e st'.
  assert (Hkey : ∀ key, key ∈ sections ++ request_fields ++ response_fields →
    match KeyError key with
    | JSONDecodeError => json_loads line = None ∧ st' = st
    | KeyError key => key ∈ sections ++ request_fields ++ response_fields
    | TypeError | AttributeError | ValueError | OverflowError => True
    | StopIteration | FileNotFoundError _ => False
    end) by done.
  destruct (json_loads line) as [item|] eqn:Hitem.
  2:{ rewrite _parseLine_early, Hitem. by intros [= <- <-]. }
  destruct (py_getitem item "request") as [e1|rq] eqn:Hrq.
  { rewrite _parseLine_early, Hitem, Hrq. intros [= <- _].
    destruct (py_getitem_error _ _ _ Hrq) as [-> |  ->]; [done|].
    apply Hkey. unfold sections. rewrite !elem_of_app, !elem_of_cons. auto. }
  destruct (py_getitem item "primaryResponse") as [e1|pr] eqn:Hpr.
  { rewrite _parseLine_early, Hitem, Hrq, Hpr. intros [= <- _].
    destruct (py_getitem_error _ _ _ Hpr) as [-> |  ->]; [done|].
    apply Hkey. unfold sections. rewrite !elem_of_app, !elem_of_cons. auto. }
  destruct (py_getitem item "shadowResponse") as [e1|sr] eqn:Hsr.
  { rewrite _parseLine_early, Hitem, Hrq, Hpr, Hsr. intros [= <- _].
    destruct (py_getitem_error _ _ _ Hsr) as [-> |  ->]; [done|].
    apply Hkey. unfold sections. rewrite !elem_of_app, !elem_of_cons. auto. }
  rewrite (_parseLine_sections _ _ _ _ _ _ Hitem Hrq Hpr Hsr), run_bind.
  destruct (_parseRequest rq st) as [[e1|l] st1] eqn:Hq.
  { intros [= <- _]. destruct (_parseRequest_error _ _ _ _ Hq) as [-> | [-> | (k & Hk & ->)]];
      [done..|]. apply Hkey. rewrite !elem_of_app. auto. }
  rewrite run_bind.
  destruct (_parseResponse pr st1) as [[e1|l1] st2] eqn:Hp.
  { intros [= <- _].
    destruct (_parseResponse_error _ _ _ _ Hp) as [-> | [-> | [-> | [-> | (k & Hk & ->)]]]];
      [done..|]. apply Hkey. rewrite !elem_of_app. auto. }
  rewrite run_bind. destruct st2 as [h2 lg2]. rewrite run_alloc. cbv beta iota.
  rewrite run_bind.
  destruct (_parseResponse sr _) as [[e1|l2] st3] eqn:Hs.
  { intros [= <- _].
    destruct (_parseResponse_error _ _ _ _ Hs) as [-> | [-> | [-> | [-> | (k & Hk & ->)]]]];
      [done..|]. apply Hkey. rewrite !elem_of_app. auto. }
  rewrite run_bind. destruct st3 as [h3 lg3]. rewrite run_alloc. cbv beta iota.
  done.
Qed.

Lemma valid_request_run v h lg :
  (_parseRequest v (mkState h lg)).1 =
    if valid_request v then inr (length h)
    else (_parseRequest v (mkState h lg)).1.
Proof.
  destruct v as [| | | | | |d]; try done. unfold valid_request.
  rewrite _parseRequest_dict.
  destruct (d !! "body") as [[| | | |s| |]|]; try done.
  rewrite decode_str.
  destruct (json_loads s); cbv zeta beta iota;
    (destruct (d !! "Method"); [|done]);
    (destruct (d !! "Request-URI"); done).
Qed.

Lemma invalid_request_run v h lg :
  valid_request v = false → ∃ e, (_parseRequest v (mkState h lg)).1 = inl e.
Proof.
  destruct v as [| | | | | |d];
    try (intros _; rewrite _parseRequest_nondict by done; by eexists).
  unfold valid_request. rewrite _parseRequest_dict.
  destruct (d !! "body") as [rawbody|]; [|by eexists].
  destruct (decode rawbody) as [e|[body lg']] eqn:Hdec; [by eexists|].
  destruct rawbody; try (by rewrite decode_not_string in Hdec).
  cbv zeta. destruct (d !! "Method"); [|by eexists].
  destruct (d !! "Request-URI"); [done|by eexists].
Qed.

Lemma valid_response_run v h lg :
  (_parseResponse v (mkState h lg)).1 =
    if valid_response v then inr (length h)
    else (_parseResponse v (mkState h lg)).1.
Proof.
  destruct v as [| | | | | |d]; try done. unfold valid_response.
  rewrite _parseResponse_dict.
  destruct (d !! "body") as [[| | | |s| |]|]; try done.
  rewrite decode_str.
  destruct (json_loads s); cbv zeta beta iota;
    (destruct (d !! "response_time_ms"); [|done]);
    (destruct (d !! "Status-Code") as [status|]; [|done]);
    by destruct (py_int status).
Qed.

Lemma invalid_response_run v h lg :
  valid_response v = false → ∃ e, (_parseResponse v (mkState h lg)).1 = inl e.
Proof.
  destruct v as [| | | | | |d];
    try (intros _; rewrite _parseResponse_nondict by done; by eexists).
  unfold valid_response. rewrite _parseResponse_dict.
  destruct (d !! "body") as [rawbody|]; [|by eexists].
  destruct (decode rawbody) as [e|[body lg']] eqn:Hdec; [by eexists|].
  destruct rawbody; try (by rewrite decode_not_string in Hdec).
  cbv zeta. destruct (d !! "response_time_ms"); [|by eexists].
  destruct (d !! "Status-Code") as [status|]; [|by eexists].
  destruct (py_int status); [by eexists|done].
Qed.

Lemma valid_request_succeeds v : valid_request v = true → succeeds (_parseRequest v).
Proof.
  intros Hv [h lg]. rewrite valid_request_run, Hv. by eexists.
Qed.

Lemma valid_response_succeeds v : valid_response v = true → succeeds (_parseResponse v).
Proof.
  intros Hv [h lg]. rewrite valid_response_run, Hv. by eexists.
Qed.

Lemma invalid_request_fails v : valid_request v = false → ∃ e, fails (_parseRequest v) e.
Proof.
  intros Hv. destruct (invalid_request_run v [] [] Hv) as [e He].
  exists e. by eapply _parseRequest_fails_at.
Qed.

Lemma invalid_response_fails v : valid_response v = false → ∃ e, fails (_parseResponse v) e.
Proof.
  intros Hv. destruct (invalid_response_run v [] [] Hv) as [e He].
  exists e. by eapply _parseResponse_fails_at.
Qed.

Lemma returned {A} (r : result A) :
  match r with inr _ => True | inl _ => False end → ∃ a, r = inr a.
Proof. destruct r; [done|by eexists]. Qed.

Lemma _parseLine_converts line item requestdata primaryResponseData shadowResponseData :
  json_loads line = Some item →
  py_getitem item "request" = inr requestdata →
  py_getitem item "primaryResponse" = inr primaryResponseData →
  py_getitem item "shadowResponse" = inr shadowResponseData →
  succeeds (_parseRequest requestdata) →
  succeeds (_parseResponse primaryResponseData) →
  succeeds (_parseResponse shadowResponseData) →
  succeeds (_parseLine line).
Proof.
  intros Hitem Hrq Hpr Hsr Hq Hp Hs st. apply returned.
  rewrite (_parseLine_sections _ _ _ _ _ _ Hitem Hrq Hpr Hsr), run_bind.
  destruct (Hq st) as [l Hl].
  destruct (_parseRequest requestdata st) as [r st1]. cbn [fst] in Hl. subst r.
  cbv beta iota. rewrite run_bind. destruct (Hp st1) as [l1 Hl1].
  destruct (_parseResponse primaryResponseData st1) as [r [h2 lg2]]. cbn [fst] in Hl1. subst r.
  cbv beta iota. rewrite run_bind, run_alloc. cbv beta iota. rewrite run_bind.
  destruct (Hs (mkState (h2 ++ [OPair (RequestResponsePair.mk l l1 None)]) lg2)) as [l2 Hl2].
  destruct (_parseResponse shadowResponseData _) as [r [h3 lg3]]. cbn [fst] in Hl2. subst r.
  cbv beta iota. rewrite run_bind, run_alloc. cbv beta iota. done.
Qed.

Lemma parses_succeeds line : succeeds (_parseLine line) → parses line = true.
Proof. intros H. unfold parses. destruct (H init) as [a ->]. done. Qed.

Lemma parses_fails line e : fails (_parseLine line) e → parses line = false.
Proof. intros H. unfold parses. by rewrite (H init). Qed.

(** X2. Which lines are parsed can be read off the line alone: the line
    decodes to an object with the three sections, the request is an object
    with a string [body], a [Method] and a [Request-URI], and each response
    is an object with a string [body], a [response_time_ms] and a
    [Status-Code] that [int] reads. Neither the content of a body nor the
    values of [Method], [Request-URI], [response_time_ms] or of any header
    matter. *)
Theorem parses_iff_valid_line line : parses line = valid_line line.
Proof.
  unfold valid_line.
  assert (Hearly : ∀ e, (∀ st, _parseLine line st = (inl e, st)) → parses line = false).
  { intros e He. apply (parses_fails line e). intros st. by rewrite He. }
  destruct (json_loads line) as [item|] eqn:Hitem.
  2:{ apply (Hearly JSONDecodeError). intros st. by rewrite _parseLine_early, Hitem. }
  destruct item as [| | | | | |d];
    try (apply (Hearly TypeError); intros st; by rewrite _parseLine_early, Hitem).
  destruct (d !! "request") as [rq|] eqn:Hrq.
  2:{ apply (Hearly (KeyError "request")). intros st.
      rewrite _parseLine_early, Hitem. simpl. by rewrite Hrq. }
  destruct (d !! "primaryResponse") as [pr|] eqn:Hpr.
  2:{ apply (Hearly (KeyError "primaryResponse")). intros st.
      rewrite _parseLine_early, Hitem. simpl. by rewrite Hrq, Hpr. }
  destruct (d !! "shadowResponse") as [sr|] eqn:Hsr.
  2:{ apply (Hearly (KeyError "shadowResponse")). intros st.
      rewrite _parseLine_early, Hitem. simpl. by rewrite Hrq, Hpr, Hsr. }
  clear Hearly.
  assert (Hgq : py_getitem (PDict d) "request" = inr rq) by (simpl; by rewrite Hrq).
  assert (Hgp : py_getitem (PDict d) "primaryResponse" = inr pr) by (simpl; by rewrite Hpr).
  assert (Hgs : py_getitem (PDict d) "shadowResponse" = inr sr) by (simpl; by rewrite Hsr).
  assert (Hprop := λ e, _parseLine_propagates line _ _ _ _ e Hitem Hgq Hgp Hgs).
  destruct (valid_request rq) eqn:Hvq; cycle 1.
  { destruct (invalid_request_fails rq Hvq) as [e He].
    apply (parses_fails line e). by apply (proj1 (Hprop e)). }
  pose proof (valid_request_succeeds rq Hvq) as Hq.
  destruct (valid_response pr) eqn:Hvp; cycle 1.
  { destruct (invalid_response_fails pr Hvp) as [e He].
    apply (parses_fails line e). by apply (proj1 (proj2 (Hprop e))). }
  pose proof (valid_response_succeeds pr Hvp) as Hp.
  destruct (valid_response sr) eqn:Hvs; cycle 1.
  { destruct (invalid_response_fails sr Hvs) as [e He].
    apply (parses_fails line e). by apply (proj2 (proj2 (Hprop e))). }
  pose proof (valid_response_succeeds sr Hvs) as Hs.
  apply parses_succeeds.
  by apply (_parseLine_converts line _ _ _ _ Hitem Hgq Hgp Hgs).
Qed.

(** X4. A request record that has a string [body], a [Method] and a
    [Request-URI] always converts, whatever the values of those two fields
    and of the others: the result is a new object, allocated after the
    existing ones, whose [http_method] and [uri] are the two values as they
    are, whose [timestamp] is [None], whose [body] is the decoded body and
    whose [headers] are the record without exactly the three known and the
    two discarded keys. *)
Theorem request_record_converts (d : gmap string pyval) rawbody method target st :
  d !! "body" = Some (PStr rawbody) →
  d !! "Method" = Some method →
  d !! "Request-URI" = Some target →
  ∃ st',
    _parseRequest (PDict d) st = (inr (length (heap st)), st') ∧
    heap st' = heap st ++
      [ORequest (Request.mk PNone method target
         (PDict (delete "HTTP-Version" (delete "Reason-Phrase"
            (delete "Request-URI" (delete "Method" (delete "body" d))))))
         (default (PStr rawbody) (json_loads rawbody)))].
Proof.
  intros Hbody Hmethod Huri. destruct st as [h lg].
  rewrite _parseRequest_dict, Hbody, decode_str.
  destruct (json_loads rawbody); cbv zeta beta iota; rewrite Hmethod, Huri;
    by eexists.
Qed.

(** X5. What is not an object is rejected with the error of the operation
    that meets it. A line that decodes to anything but an object raises
    [TypeError] at [item['request']], before anything is allocated or
    logged; a section that is a list raises [TypeError] at [.pop], and a
    section that is a string, a number, a Boolean or [None] raises
    [AttributeError]. *)
Theorem non_objects_are_rejected v :
  is_dict v = false →
  (∀ line st, json_loads line = Some v → _parseLine line st = (inl TypeError, st)) ∧
  fails (_parseRequest v) (match v with PList _ => TypeError | _ => AttributeError end) ∧
  fails (_parseResponse v) (match v with PList _ => TypeError | _ => AttributeError end).
Proof.
  intros Hv. split_and!.
  - intros line st Hline. rewrite _parseLine_early, Hline. by destruct v.
  - intros [h lg]. rewrite _parseRequest_nondict; [done|]. by intros d ->.
  - intros [h lg]. rewrite _parseResponse_nondict; [done|]. by intros d ->.
Qed.

(** X6. A [body] that is not a string makes both extractors raise
    [TypeError], whatever else the record holds or lacks: [json.loads]
    raises it and only [JSONDecodeError] is caught. An embedded JSON object
    as body is therefore rejected, not kept. *)
Theorem non_string_body_is_TypeError (d : gmap string pyval) rawbody :
  d !! "body" = Some rawbody →
  is_string rawbody = false →
  fails (_parseBodyAsJson rawbody) TypeError ∧
  fails (_parseRequest (PDict d)) TypeError ∧
  fails (_parseResponse (PDict d)) TypeError.
Proof.
  intros Hbody Hstr. split_and!.
  - intros st. by rewrite _parseBodyAsJson_decode, decode_not_string.
  - intros [h lg]. by rewrite _parseRequest_dict, Hbody, decode_not_string.
  - intros [h lg]. by rewrite _parseResponse_dict, Hbody, decode_not_string.
Qed.

(** ** Further properties of the batch loader *)

(** *** The parser logs at level [debug] only *)

Lemma quiet_ret {A} (a : A) : quiet (mret a).
Proof. intros st r st' [= <- <-]. exists []. by rewrite app_nil_r. Qed.

Lemma quiet_lift {A} (x : result A) : quiet (lift x).
Proof. intros st r st' [= <- <-]. exists []. by rewrite app_nil_r. Qed.

Lemma quiet_alloc o : quiet (alloc o).
Proof. intros st r st' [= <- <-]. exists []. simpl. by rewrite app_nil_r. Qed.

Lemma quiet_update l f : quiet (update l f).
Proof. intros st r st' [= <- <-]. exists []. simpl. by rewrite app_nil_r. Qed.

Lemma quiet_debug rawbody : quiet (logger (Debug_body_not_json rawbody)).
Proof. intros st r st' [= <- <-]. by exists [Debug_body_not_json rawbody]. Qed.

Lemma quiet_bind {A B} (m : M A) (f : A → M B) :
  quiet m → (∀ a, quiet (f a)) → quiet (m ≫= f).
Proof.
  intros Hm Hf st r st'. rewrite run_bind.
  destruct (m st) as [[e|a] st1] eqn:Hrun.
  - intros [= <- <-]. by eapply Hm.
  - intros Hrun2. destruct (Hm _ _ _ Hrun) as (lg1 & Hlog1 & Hlg1).
    destruct (Hf a _ _ _ Hrun2) as (lg2 & Hlog2 & Hlg2).
    exists (lg1 ++ lg2). rewrite Hlog2, Hlog1, <- app_assoc. split; [done|].
    by rewrite List.filter_app, Hlg1, Hlg2.
Qed.

Lemma quiet_try_except {A} (m : M A) catches (h : exn → M A) :
  quiet m → (∀ e, quiet (h e)) → quiet (try_except m catches h).
Proof.
  intros Hm Hh st r st'. unfold try_except.
  destruct (m st) as [[e|a] st1] eqn:Hrun.
  - destruct (catches e).
    + intros Hrun2. destruct (Hm _ _ _ Hrun) as (lg1 & Hlog1 & Hlg1).
      destruct (Hh e _ _ _ Hrun2) as (lg2 & Hlog2 & Hlg2).
      exists (lg1 ++ lg2). rewrite Hlog2, Hlog1, <- app_assoc. split; [done|].
      by rewrite List.filter_app, Hlg1, Hlg2.
    + intros [= <- <-]. by eapply Hm.
  - intros [= <- <-]. by eapply Hm.
Qed.

Lemma quiet_for_in {A S} (xs : list A) (body : A → S → M S) :
  (∀ x acc, quiet (body x acc)) → ∀ acc, quiet (for_in xs body acc).
Proof.
  intros Hbody. induction xs as [|x xs IH]; intros acc.
  - apply quiet_ret.
  - rewrite for_in_cons. apply quiet_bind; [apply Hbody|apply IH].
Qed.

Lemma quiet_parseBodyAsJson rawbody : quiet (_parseBodyAsJson rawbody).
Proof.
  apply quiet_try_except; [apply quiet_lift|]. intros e.
  apply quiet_bind; [apply quiet_debug|]. intros _. apply quiet_ret.
Qed.

Lemma quiet_discard_ignored data : quiet (discard_ignored data).
Proof.
  apply quiet_for_in. intros field acc.
  apply quiet_bind; [apply quiet_lift|]. intros [|]; [|apply quiet_ret].
  apply quiet_bind; [apply quiet_lift|]. intros [x acc']. apply quiet_ret.
Qed.

Ltac quiet_steps :=
  repeat first
    [ apply quiet_ret | apply quiet_lift | apply quiet_alloc | apply quiet_update
    | apply quiet_parseBodyAsJson | apply quiet_discard_ignored
    | apply quiet_bind; [|intros ?]
    | match goal with |- quiet (let '(_, _) := ?p in _) => destruct p end ].

Lemma quiet_parseResponse v : quiet (_parseResponse v).
Proof. unfold _parseResponse, setattr_response. quiet_steps. Qed.

Lemma quiet_parseRequest v : quiet (_parseRequest v).
Proof. unfold _parseRequest, setattr_request. quiet_steps. Qed.

Lemma quiet_parseLine line : quiet (_parseLine line).
Proof.
  unfold _parseLine, setattr_pair.
  repeat first
    [ apply quiet_ret | apply quiet_lift | apply quiet_alloc | apply quiet_update
    | apply quiet_parseRequest | apply quiet_parseResponse
    | apply quiet_bind; [|intros ?] ].
Qed.

(** *** Blocks of objects *)

Lemma take_drop_prefix (h k : list obj) n b :
  length b = 5 → take 5 (drop n h) = b → take 5 (drop n (h ++ k)) = b.
Proof.
  intros Hb Hh.
  assert (n + 5 ≤ length h).
  { apply (f_equal length) in Hh. rewrite length_take, length_drop in Hh. lia. }
  rewrite drop_app_le by lia. rewrite take_app_le; [done|].
  rewrite length_drop. lia.
Qed.

Lemma blocks_prefix h h' ps : ∀ lo ss,
  h `prefix_of` h' → blocks lo h ps ss → blocks lo h' ps ss.
Proof.
  intros lo ss [k ->]. revert lo ss.
  induction ps as [|p ps IH]; intros lo [|s ss]; try done.
  intros (n & rq & r1 & r2 & Hlo & Hp & Hs & Hblock & Hrest).
  exists n, rq, r1, r2. split_and!; try done.
  - by apply take_drop_prefix.
  - by apply IH.
Qed.

Lemma blocks_lower lo lo' h ps ss :
  lo' ≤ lo → blocks lo h ps ss → blocks lo' h ps ss.
Proof.
  intros Hlo. destruct ps as [|p ps], ss as [|s ss]; try done.
  intros (n & rq & r1 & r2 & Hn & Hrest). exists n, rq, r1, r2.
  split; [lia|done].
Qed.

Lemma block_fits (h : list obj) n b :
  length b = 5 → take 5 (drop n h) = b → n + 5 ≤ length h.
Proof.
  intros Hb Hh. apply (f_equal length) in Hh.
  rewrite length_take, length_drop in Hh. lia.
Qed.

Lemma blocks_app h1 h ps1 : ∀ lo ss1 ps2 ss2,
  lo ≤ length h1 →
  h1 `prefix_of` h →
  blocks lo h1 ps1 ss1 → blocks (length h1) h ps2 ss2 →
  blocks lo h (ps1 ++ ps2) (ss1 ++ ss2).
Proof.
  induction ps1 as [|p ps1 IH]; intros lo [|s ss1] ps2 ss2 Hlo Hpre; try done.
  - intros _ H. by eapply blocks_lower.
  - intros (n & rq & r1 & r2 & Hn & Hp & Hs & Hblock & Hrest) H2.
    exists n, rq, r1, r2. split_and!; try done.
    + destruct Hpre as [k ->]. by apply take_drop_prefix.
    + apply IH; try done. eapply block_fits; [|exact Hblock]. done.
Qed.

Lemma blocks_lookup h ps : ∀ lo ss i p,
  blocks lo h ps ss → ps !! i = Some p →
  ∃ n rq r1 r2,
    lo + 5 * i ≤ n ∧ p = n + 2 ∧ ss !! i = Some (n + 4) ∧
    take 5 (drop n h) = triple_objects n rq r1 r2.
Proof.
  induction ps as [|p0 ps IH]; intros lo [|s ss] i p; try done.
  intros (n & rq & r1 & r2 & Hn & Hp & Hs & Hblock & Hrest) Hi.
  destruct i as [|i].
  - injection Hi as <-. exists n, rq, r1, r2. subst. split_and!; [lia|done..].
  - destruct (IH _ _ _ _ Hrest Hi) as (n' & rq' & r1' & r2' & Hn' & ? & ? & ?).
    exists n', rq', r1', r2'. split_and!; [lia|done..].
Qed.

Lemma blocks_length h ps : ∀ lo ss, blocks lo h ps ss → length ps = length ss.
Proof.
  induction ps as [|p ps IH]; intros lo [|s ss]; try done.
  intros (n & rq & r1 & r2 & _ & _ & _ & _ & Hrest). simpl. f_equal. by eapply IH.
Qed.

Lemma blocks_sorted h ps : ∀ lo ss i j p q,
  blocks lo h ps ss → i < j → ps !! i = Some p → ps !! j = Some q → p + 5 ≤ q.
Proof.
  induction ps as [|p0 ps IH]; intros lo [|s ss] i j p q; try done.
  intros (n & rq & r1 & r2 & Hn & Hp & Hs & Hblock & Hrest) Hij Hi Hj.
  destruct j as [|j]; [lia|]. destruct i as [|i].
  - injection Hi as <-.
    destruct (blocks_lookup _ _ _ _ _ _ Hrest Hj) as (n' & ? & ? & ? & ? & -> & _). lia.
  - eapply (IH _ _ i j); [done|lia|done..].
Qed.

(** *** One induction over the lines and the files *)

Lemma line_exception_run line st e st' :
  _parseLine line st = (inl e, st') → line_exception line = Some e.
Proof.
  intros H. unfold line_exception.
  rewrite (_parseLine_fails_at line st e); [done|]. by rewrite H.
Qed.

Lemma line_exception_parsed line st pairs st' :
  _parseLine line st = (inr pairs, st') → line_exception line = None.
Proof.
  intros H. unfold line_exception.
  destruct (_parseLine_succeeds_at line st pairs) with (st := init) as [a ->]; [|done].
  by rewrite H.
Qed.

Lemma load_lines_full file_path lines : ∀ i primaryPairs shadowPairs st,
  ∃ ps ss st' lg,
    for_in (enumerate_from i lines) (load_line file_path) (primaryPairs, shadowPairs) st
    = (inr (primaryPairs ++ ps, shadowPairs ++ ss), st') ∧
    heap st `prefix_of` heap st' ∧
    blocks (length (heap st)) (heap st') ps ss ∧
    length ps = length (List.filter parses lines) ∧
    log st' = log st ++ lg ∧
    List.filter is_info lg = line_errors file_path i lines.
Proof.
  induction lines as [|line lines IH]; intros i primaryPairs shadowPairs st.
  { exists [], [], st, []. rewrite !app_nil_r. by split_and!. }
  cbn [enumerate_from List.filter line_errors]. rewrite for_in_cons, run_bind.
  rewrite (parses_of_run line st).
  destruct (_parseLine line st) as [[e|[p s]] st1] eqn:Hline; cbn [fst].
  - rewrite (load_line_error _ _ _ _ _ _ _ Hline).
    rewrite (line_exception_run _ _ _ _ Hline).
    destruct (quiet_parseLine line _ _ _ Hline) as (lg1 & Hlog1 & Hlg1).
    destruct (IH (S i) primaryPairs shadowPairs
                (mkState (heap st1) (log st1 ++ [Info_line_error i file_path e])))
      as (ps & ss & st' & lg & Hrun & Hpre & Hblocks & Hlen & Hlog & Hlg).
    pose proof (_parseLine_grows _ _ _ _ Hline) as Hgrow.
    exists ps, ss, st', (lg1 ++ Info_line_error i file_path e :: lg).
    split_and!; try done.
    + by etrans.
    + eapply blocks_lower; [|done]. by apply prefix_length.
    + rewrite Hlog. cbn [log]. rewrite Hlog1, <- !app_assoc. done.
    + rewrite List.filter_app, Hlg1. cbn [List.filter is_info app]. by rewrite Hlg.
  - rewrite (load_line_parsed _ _ _ _ _ _ _ _ _ Hline).
    rewrite (line_exception_parsed _ _ _ _ Hline).
    destruct (quiet_parseLine line _ _ _ Hline) as (lg1 & Hlog1 & Hlg1).
    destruct (IH (S i) (primaryPairs ++ [p]) (shadowPairs ++ [s]) st1)
      as (ps & ss & st' & lg & Hrun & Hpre & Hblocks & Hlen & Hlog & Hlg).
    pose proof (_parseLine_grows _ _ _ _ Hline) as Hgrow.
    apply _parseLine_inv in Hline as (rq & r1 & r2 & lg0 & -> & -> & ->).
    exists (length (heap st) + 2 :: ps), (length (heap st) + 4 :: ss), st', (lg1 ++ lg).
    split_and!.
    + rewrite Hrun. by rewrite <- !app_assoc.
    + by etrans.
    + exists (length (heap st)), rq, r1, r2. split_and!; try done.
      * destruct Hpre as [k ->]. unfold grown. cbn [heap].
        rewrite <- app_assoc, drop_app_length. by rewrite take_app_length'.
      * unfold grown in Hblocks. cbn [heap] in Hblocks.
        rewrite length_app in Hblocks. exact Hblocks.
    + simpl. by rewrite Hlen.
    + rewrite Hlog, Hlog1, <- !app_assoc. done.
    + by rewrite List.filter_app, Hlg1, Hlg.
Qed.

Lemma load_file_full file_path lines primaryPairs shadowPairs st :
  fs !! file_path = Some lines →
  ∃ ps ss st' lg,
    load_file file_path (primaryPairs, shadowPairs) st
    = (inr (primaryPairs ++ ps, shadowPairs ++ ss), st') ∧
    heap st `prefix_of` heap st' ∧
    blocks (length (heap st)) (heap st') ps ss ∧
    length ps = length (List.filter parses lines) ∧
    log st' = log st ++ lg ∧
    List.filter is_info lg
    = line_errors file_path 0 lines
      ++ [Info_loaded (length primaryPairs + length ps) (length shadowPairs + length ss)
            file_path].
Proof.
  intros Hfile. unfold load_file, open_file. rewrite Hfile, run_bind, run_lift.
  cbv beta iota. rewrite run_bind. unfold enumerate.
  destruct (load_lines_full file_path lines 0 primaryPairs shadowPairs st)
    as (ps & ss & [h lg0] & lg & Hrun & Hpre & Hblocks & Hlen & Hlog & Hlg).
  rewrite Hrun. cbv beta iota. rewrite run_bind, run_logger, run_ret.
  cbn [fst snd heap log] in *.
  eexists ps, ss, _, (lg ++ [_]). split_and!; try done.
  - cbn [log]. by rewrite Hlog, <- app_assoc.
  - rewrite List.filter_app, Hlg. cbn [List.filter is_info]. by rewrite !length_app.
Qed.

Lemma load_files_full paths : ∀ files primaryPairs shadowPairs st,
  Forall2 (λ file_path lines, fs !! file_path = Some lines) paths files →
  length primaryPairs = length shadowPairs →
  ∃ ps ss st' lg,
    for_in paths load_file (primaryPairs, shadowPairs) st
    = (inr (primaryPairs ++ ps, shadowPairs ++ ss), st') ∧
    heap st `prefix_of` heap st' ∧
    blocks (length (heap st)) (heap st') ps ss ∧
    log st' = log st ++ lg ∧
    List.filter is_info lg = load_records (length primaryPairs) (zip paths files).
Proof.
  induction paths as [|file_path paths IH];
    intros files primaryPairs shadowPairs st Hfiles Hacc.
  { apply Forall2_nil_inv_l in Hfiles as ->.
    exists [], [], st, []. rewrite !app_nil_r. by split_and!. }
  apply Forall2_cons_inv_l in Hfiles as (lines & files' & Hfile & Hfiles & ->).
  rewrite for_in_cons, run_bind.
  destruct (load_file_full file_path lines primaryPairs shadowPairs st Hfile)
    as (ps1 & ss1 & st1 & lg1 & Hrun1 & Hpre1 & Hblocks1 & Hlen1 & Hlog1 & Hlg1).
  rewrite Hrun1. cbv beta iota.
  pose proof (blocks_length _ _ _ _ Hblocks1) as Hlen1'.
  destruct (IH files' (primaryPairs ++ ps1) (shadowPairs ++ ss1) st1 Hfiles)
    as (ps2 & ss2 & st2 & lg2 & Hrun2 & Hpre2 & Hblocks2 & Hlog2 & Hlg2).
  { rewrite !length_app. lia. }
  exists (ps1 ++ ps2), (ss1 ++ ss2), st2, (lg1 ++ lg2). split_and!.
  - rewrite Hrun2. by rewrite <- !app_assoc.
  - by etrans.
  - eapply blocks_app; [by apply prefix_length|done|done|done].
  - by rewrite Hlog2, Hlog1, <- app_assoc.
  - rewrite List.filter_app, Hlg1, Hlg2. cbn [zip zip_with load_records].
    rewrite length_app, <- Hlen1, <- Hlen1', <- Hacc, <- app_assoc. done.
Qed.

Lemma for_in_app {A S} (xs ys : list A) (body : A → S → M S) : ∀ acc st,
  for_in (xs ++ ys) body acc st
  = (acc' ← for_in xs body acc; for_in ys body acc') st.
Proof.
  induction xs as [|x xs IH]; intros acc st; [done|].
  cbn [app]. rewrite !for_in_cons, !run_bind.
  destruct (body x acc st) as [[e|acc1] st1]; [done|].
  by rewrite IH, run_bind.
Qed.

Lemma first_unopenable_None paths :
  first_unopenable paths = None →
  ∃ files, Forall2 (λ file_path lines, fs !! file_path = Some lines) paths files.
Proof.
  unfold first_unopenable. induction paths as [|p paths IH]; intros H.
  { by exists []. }
  cbn [List.find] in H. case_bool_decide as Hp; [done|].
  destruct (IH H) as [files Hfiles].
  destruct (fs !! p) as [lines|] eqn:Hlines; [|done].
  exists (lines :: files). by constructor.
Qed.

Lemma first_unopenable_Some paths p :
  first_unopenable paths = Some p →
  ∃ before after,
    paths = before ++ p :: after ∧ first_unopenable before = None ∧ fs !! p = None.
Proof.
  unfold first_unopenable. induction paths as [|q paths IH]; intros H; [done|].
  cbn [List.find] in H. case_bool_decide as Hq.
  - injection H as <-. by exists [], paths.
  - destruct (IH H) as (before & after & -> & Hbefore & Hp).
    exists (q :: before), after. split_and!; [done| |done].
    cbn [List.find]. by rewrite bool_decide_eq_false_2.
Qed.

Lemma first_unopenable_Forall2 paths files :
  Forall2 (λ file_path lines, fs !! file_path = Some lines) paths files →
  first_unopenable paths = None.
Proof.
  unfold first_unopenable. induction 1 as [|p lines paths files Hp _ IH]; [done|].
  cbn [List.find]. rewrite bool_decide_eq_false_2; [done|]. by rewrite Hp.
Qed.

Lemma load_file_unopenable file_path streams st :
  fs !! file_path = None →
  load_file file_path streams st = (inl (FileNotFoundError file_path), st).
Proof.
  intros H. unfold load_file, open_file. by rewrite H, run_bind, run_lift.
Qed.

Lemma load_cases log_file_paths st :
  match first_unopenable log_file_paths with
  | None => ∃ streams st', load log_file_paths st = (inr streams, st')
  | Some file_path =>
      ∃ before after,
        log_file_paths = before ++ file_path :: after ∧
        first_unopenable before = None ∧
        load log_file_paths st = (inl (FileNotFoundError file_path), (load before st).2)
  end.
Proof.
  destruct (first_unopenable log_file_paths) as [p|] eqn:Hfirst.
  - destruct (first_unopenable_Some _ _ Hfirst) as (before & after & -> & Hbefore & Hp).
    exists before, after. split_and!; [done..|].
    destruct (first_unopenable_None _ Hbefore) as [files Hfiles].
    destruct (load_files_full before files [] [] st Hfiles eq_refl)
      as (ps & ss & st1 & lg & Hrun & _).
    unfold load. rewrite for_in_app, run_bind, Hrun. cbv beta iota.
    rewrite for_in_cons, run_bind. by rewrite load_file_unopenable.
  - destruct (first_unopenable_None _ Hfirst) as [files Hfiles].
    destruct (load_files_full log_file_paths files [] [] st Hfiles eq_refl)
      as (ps & ss & st1 & lg & Hrun & _).
    by eexists _, _.
Qed.

(** X8. [load] returns exactly when every path can be opened. Otherwise it
    raises the error of [open] for the first path that cannot: the files
    before it have been loaded (the state is the one their load leaves),
    the pairs parsed from them are not returned, and the files after it are
    not read. *)
Theorem load_needs_every_file log_file_paths st :
  match first_unopenable log_file_paths with
  | None => ∃ streams st', load log_file_paths st = (inr streams, st')
  | Some file_path =>
      ∃ before after,
        log_file_paths = before ++ file_path :: after ∧
        first_unopenable before = None ∧
        load log_file_paths st = (inl (FileNotFoundError file_path), (load before st).2)
  end.
Proof. apply load_cases. Qed.

Lemma load_returned log_file_paths st streams st' :
  load log_file_paths st = (inr streams, st') →
  ∃ files, Forall2 (λ file_path lines, fs !! file_path = Some lines) log_file_paths files.
Proof.
  intros Hrun. apply first_unopenable_None.
  destruct (first_unopenable log_file_paths) as [p|] eqn:Hfirst; [|done].
  destruct (first_unopenable_Some _ _ Hfirst) as (before & after & -> & Hbefore & Hp).
  destruct (first_unopenable_None _ Hbefore) as [files Hfiles].
  destruct (load_files_full before files [] [] st Hfiles eq_refl)
    as (ps & ss & st1 & lg & Hrun1 & _).
  unfold load in Hrun. rewrite for_in_app, run_bind, Hrun1 in Hrun. cbv beta iota in Hrun.
  rewrite for_in_cons, run_bind in Hrun. by rewrite load_file_unopenable in Hrun.
Qed.

(** X7. The pairs that [load] returns sit in blocks of five new objects,
    one block per parsed line and in the order of the lines: request,
    primary response, primary pair, shadow response, shadow pair. So the
    shadow pair is two objects after its primary pair, the pairs of a later
    line are at least five objects after those of an earlier one, and no
    two lines share a pair, a request or a response. *)
Theorem load_allocates_blocks log_file_paths st primaryPairs shadowPairs st' :
  load log_file_paths st = (inr (primaryPairs, shadowPairs), st') →
  blocks (length (heap st)) (heap st') primaryPairs shadowPairs ∧
  (∀ i p, primaryPairs !! i = Some p →
     length (heap st) + 2 ≤ p ∧ shadowPairs !! i = Some (p + 2)) ∧
  (∀ i j p q, i < j → primaryPairs !! i = Some p → primaryPairs !! j = Some q → p + 5 ≤ q).
Proof.
  intros Hrun. destruct (load_returned _ _ _ _ Hrun) as [files Hfiles].
  destruct (load_files_full log_file_paths files [] [] st Hfiles eq_refl)
    as (ps & ss & st1 & lg & Hrun1 & _ & Hblocks & _).
  unfold load in Hrun. rewrite Hrun1 in Hrun. injection Hrun as <- <- <-.
  cbn [app]. split_and!.
  - done.
  - intros i p Hp.
    destruct (blocks_lookup _ _ _ _ _ _ Hblocks Hp) as (n & rq & r1 & r2 & Hn & -> & Hs & _).
    split; [lia|]. rewrite Hs. f_equal. lia.
  - intros i j p q. by eapply blocks_sorted.
Qed.

(** X9. What [load] logs at level [info], in order: for each file, one
    error record for every line that failed, with the number of the line
    counted from 0 within its file, the path and the exception; then one
    record with the numbers of primary and shadow pairs loaded so far. The
    two numbers are equal and count the valid lines of this file and of
    all the files before it. *)
Theorem load_info_records log_file_paths files st :
  mapM (λ file_path, fs !! file_path) log_file_paths = Some files →
  ∃ lg,
    log (load log_file_paths st).2 = log st ++ lg ∧
    List.filter is_info lg = load_records 0 (zip log_file_paths files).
Proof.
  intros Hfiles. apply mapM_Some in Hfiles.
  destruct (load_files_full log_file_paths files [] [] st Hfiles eq_refl)
    as (ps & ss & st1 & lg & Hrun1 & _ & _ & Hlog & Hlg).
  unfold load. rewrite Hrun1. by exists lg.
Qed.

(** X13. [load] only adds to the state, whether it returns or raises: the
    objects and the log records that were there are still there, at the
    same places and unchanged. *)
Theorem load_only_appends log_file_paths st :
  heap st `prefix_of` heap (load log_file_paths st).2 ∧
  log st `prefix_of` log (load log_file_paths st).2.
Proof.
  assert (Hok : ∀ paths,
    first_unopenable paths = None →
    heap st `prefix_of` heap (load paths st).2 ∧ log st `prefix_of` log (load paths st).2).
  { intros paths Hfirst. destruct (first_unopenable_None _ Hfirst) as [files Hfiles].
    destruct (load_files_full paths files [] [] st Hfiles eq_refl)
      as (ps & ss & st1 & lg & Hrun1 & Hpre & _ & Hlog & _).
    unfold load. rewrite Hrun1. cbn [snd]. split; [done|]. rewrite Hlog.
    by apply prefix_app_r. }
  pose proof (load_cases log_file_paths st) as H.
  destruct (first_unopenable log_file_paths) as [p|] eqn:Hfirst; [|by apply Hok].
  destruct H as (before & after & -> & Hbefore & ->). cbn [snd]. by apply Hok.
Qed.

(** ** Further properties of the generator *)

Lemma nexts_Finished k st :
  nexts k Finished st = (replicate k (inl StopIteration), Finished, st).
Proof. induction k as [|k IH]; [done|]. cbn [nexts next replicate]. by rewrite IH. Qed.

Lemma nexts_exhausted k st :
  nexts (S k) (Suspended []) st = (replicate (S k) (inl StopIteration), Finished, st).
Proof. cbn [nexts next]. by rewrite nexts_Finished. Qed.

Lemma nexts_add n : ∀ m g st,
  nexts (n + m) g st
  = let '(rs, g', st') := nexts n g st in
    let '(rs', g'', st'') := nexts m g' st' in
    (rs ++ rs', g'', st'').
Proof.
  induction n as [|n IH]; intros m g st.
  { cbn [nexts Nat.add]. by destruct (nexts m g st) as [[rs g'] st']. }
  cbn [nexts Nat.add]. destruct (next g st) as [[r g1] st1]. rewrite IH.
  destruct (nexts n g1 st1) as [[rs g2] st2].
  by destruct (nexts m g2 st2) as [[rs' g3] st3].
Qed.

Lemma nexts_parsed file_path lines : ∀ rest i primaryPairs shadowPairs st,
  Forall (λ line, parses line = true) lines →
  ∃ pairs st',
    nexts (length lines) (Suspended (lines ++ rest)) st
    = (inr <$> pairs, Suspended rest, st') ∧
    length pairs = length lines ∧
    for_in (enumerate_from i lines) (load_line file_path) (primaryPairs, shadowPairs) st
    = (inr (primaryPairs ++ pairs.*1, shadowPairs ++ pairs.*2), st').
Proof.
  induction lines as [|line lines IH]; intros rest i primaryPairs shadowPairs st Hvalid.
  { exists [], st. cbn. by rewrite !app_nil_r. }
  inversion Hvalid as [|? ? Hline Hlines]; subst.
  destruct (parses_true line st Hline) as ([p s] & st1 & Hrun).
  destruct (IH rest (S i) (primaryPairs ++ [p]) (shadowPairs ++ [s]) st1 Hlines)
    as (pairs & st' & Hnexts & Hlen & Hloop).
  exists ((p, s) :: pairs), st'. split_and!.
  - cbn [length app nexts next]. rewrite Hrun, Hnexts. done.
  - simpl. by rewrite Hlen.
  - cbn [enumerate_from]. rewrite for_in_cons, run_bind.
    rewrite (load_line_parsed _ _ _ _ _ _ _ _ _ Hrun), Hloop.
    cbn [fmap list_fmap fst snd]. by rewrite <- !app_assoc.
Qed.

(** X11. On lines that are all valid the generator of [load_from_stdin]
    and the loop of the batch loader do the same: consuming the generator
    yields, line by line, the pairs that the loop appends to its two
    streams, and both leave the same state, heap and log. After the last
    line every further [next] raises [StopIteration] and changes
    nothing. *)
Theorem stdin_agrees_with_batch lines file_path i primaryPairs shadowPairs st :
  Forall (λ line, parses line = true) lines →
  ∃ pairs st',
    nexts (length lines) (load_from_stdin lines) st = (inr <$> pairs, Suspended [], st') ∧
    for_in (enumerate_from i lines) (load_line file_path) (primaryPairs, shadowPairs) st
    = (inr (primaryPairs ++ pairs.*1, shadowPairs ++ pairs.*2), st') ∧
    ∀ k, nexts (length lines + S k) (load_from_stdin lines) st
         = ((inr <$> pairs) ++ replicate (S k) (inl StopIteration), Finished, st').
Proof.
  intros Hvalid.
  destruct (nexts_parsed file_path lines [] i primaryPairs shadowPairs st Hvalid)
    as (pairs & st' & Hnexts & Hlen & Hloop).
  rewrite app_nil_r in Hnexts. exists pairs, st'. unfold load_from_stdin.
  split_and!; [done..|].
  intros k. by rewrite nexts_add, Hnexts, nexts_exhausted.
Qed.

(** X10. The generator stops at the first line that fails. It yields the
    pairs of the valid lines before it, one per [next]; the [next] after
    them raises the exception of the failing line; from then on the
    generator is finished, every further [next] raises [StopIteration] and
    changes nothing, so the lines after the failing one are not parsed. *)
Theorem stdin_stops_at_first_error good bad rest st :
  Forall (λ line, parses line = true) good →
  parses bad = false →
  ∃ pairs e st_good st',
    length pairs = length good ∧
    nexts (length good) (load_from_stdin (good ++ bad :: rest)) st
    = (inr <$> pairs, Suspended (bad :: rest), st_good) ∧
    _parseLine bad st_good = (inl e, st') ∧
    ∀ k, nexts (length good + S k) (load_from_stdin (good ++ bad :: rest)) st
         = ((inr <$> pairs) ++ inl e :: replicate k (inl StopIteration), Finished, st').
Proof.
  intros Hgood Hbad.
  destruct (nexts_parsed "" good (bad :: rest) 0 [] [] st Hgood)
    as (pairs & st_good & Hnexts & Hlen & _).
  destruct (parses_false bad st_good Hbad) as (e & st' & Hrun).
  exists pairs, e, st_good, st'. unfold load_from_stdin. split_and!; [done..|].
  intros k. rewrite nexts_add, Hnexts. cbn [nexts next]. rewrite Hrun.
  by rewrite nexts_Finished.
Qed.

(** ** Loading more files *)

Lemma related_ret {A B} (R : A → B → Prop) a b : R a b → related R (mret a) (mret b).
Proof. intros HR st1 st2 Hh. done. Qed.

Lemma related_lift {A} (x : result A) : related eq (lift x) (lift x).
Proof. intros st1 st2 Hh. unfold lift. by destruct x. Qed.

Lemma related_alloc o : related eq (alloc o) (alloc o).
Proof. intros st1 st2 Hh. unfold alloc. cbn [heap]. by rewrite Hh. Qed.

Lemma related_update l f : related eq (update l f) (update l f).
Proof. intros st1 st2 Hh. unfold update. cbn [heap]. by rewrite Hh. Qed.

Lemma related_logger r1 r2 : related eq (logger r1) (logger r2).
Proof. intros st1 st2 Hh. unfold logger. done. Qed.

Lemma related_bind {A B A' B'} (R : A → B → Prop) (R' : A' → B' → Prop)
    (m1 : M A) (m2 : M B) (f1 : A → M A') (f2 : B → M B') :
  related R m1 m2 → (∀ a b, R a b → related R' (f1 a) (f2 b)) →
  related R' (m1 ≫= f1) (m2 ≫= f2).
Proof.
  intros Hm Hf st1 st2 Hh. rewrite !run_bind. specialize (Hm st1 st2 Hh).
  destruct (m1 st1) as [[e1|a] st1'], (m2 st2) as [[e2|b] st2']; try done.
  destruct Hm as [HR Hh']. by apply Hf.
Qed.

Lemma related_try_except {A B} (R : A → B → Prop) (m1 : M A) (m2 : M B) catches h1 h2 :
  related R m1 m2 → (∀ e, related R (h1 e) (h2 e)) →
  related R (try_except m1 catches h1) (try_except m2 catches h2).
Proof.
  intros Hm Hh st1 st2 Heq. unfold try_except. specialize (Hm st1 st2 Heq).
  destruct (m1 st1) as [[e1|a] st1'], (m2 st2) as [[e2|b] st2']; try done.
  destruct Hm as [-> Heq']. destruct (catches e2); [by apply Hh|done].
Qed.

Lemma related_for_in {A S T} (R : S → T → Prop) (xs : list A)
    (body1 : A → S → M S) (body2 : A → T → M T) :
  (∀ x a b, R a b → related R (body1 x a) (body2 x b)) →
  ∀ a b, R a b → related R (for_in xs body1 a) (for_in xs body2 b).
Proof.
  intros Hbody. induction xs as [|x xs IH]; intros a b HR.
  - by apply related_ret.
  - rewrite !for_in_cons. eapply related_bind; [by apply Hbody|]. apply IH.
Qed.

Ltac related_steps :=
  repeat first
    [ apply related_lift | apply related_alloc | apply related_update
    | apply related_logger | apply (related_ret eq); reflexivity
    | eapply (related_bind eq); [|intros ? ? <-] ].

Lemma related_parseBodyAsJson rawbody :
  related eq (_parseBodyAsJson rawbody) (_parseBodyAsJson rawbody).
Proof.
  apply related_try_except; [apply related_lift|]. intros e. related_steps.
Qed.

Lemma related_discard_ignored data :
  related eq (discard_ignored data) (discard_ignored data).
Proof.
  apply related_for_in; [|done]. intros field a b <-.
  eapply related_bind; [apply related_lift|]. intros present ? <-.
  destruct present; [|by apply related_ret].
  eapply related_bind; [apply related_lift|]. intros [x acc] ? <-. by apply related_ret.
Qed.

Lemma related_parseResponse v : related eq (_parseResponse v) (_parseResponse v).
Proof.
  unfold _parseResponse, setattr_response.
  repeat first
    [ apply related_lift | apply related_alloc | apply related_update
    | apply related_parseBodyAsJson | apply related_discard_ignored
    | apply (related_ret eq); reflexivity
    | eapply (related_bind eq); [|intros ? ? <-]
    | match goal with |- related _ (let '(_, _) := ?p in _) _ => destruct p end ].
Qed.

Lemma related_parseRequest v : related eq (_parseRequest v) (_parseRequest v).
Proof.
  unfold _parseRequest, setattr_request.
  repeat first
    [ apply related_lift | apply related_alloc | apply related_update
    | apply related_parseBodyAsJson | apply related_discard_ignored
    | apply (related_ret eq); reflexivity
    | eapply (related_bind eq); [|intros ? ? <-]
    | match goal with |- related _ (let '(_, _) := ?p in _) _ => destruct p end ].
Qed.

Lemma related_parseLine line : related eq (_parseLine line) (_parseLine line).
Proof.
  unfold _parseLine, setattr_pair.
  repeat first
    [ apply related_lift | apply related_alloc | apply related_update
    | apply related_parseRequest | apply related_parseResponse
    | apply (related_ret eq); reflexivity
    | eapply (related_bind eq); [|intros ? ? <-] ].
Qed.

Lemma same_added_refl x0 y0 : same_added x0 y0 x0 y0.
Proof. exists [], []. destruct x0, y0. by rewrite !app_nil_r. Qed.

Lemma related_load_line x0 y0 file_path il x y :
  same_added x0 y0 x y →
  related (same_added x0 y0) (load_line file_path il x) (load_line file_path il y).
Proof.
  intros (ps & ss & -> & ->). destruct il as [i line]. unfold load_line. cbn [truthy].
  apply related_try_except.
  - eapply related_bind; [apply related_parseLine|]. intros [p s] ? <-.
    apply related_ret. exists (ps ++ [p]), (ss ++ [s]). by rewrite !app_assoc.
  - intros e. eapply related_bind; [apply related_logger|]. intros _ _ _.
    apply related_ret. by exists ps, ss.
Qed.

Lemma related_load_file x0 y0 file_path x y :
  same_added x0 y0 x y →
  related (same_added x0 y0) (load_file file_path x) (load_file file_path y).
Proof.
  intros Hxy. unfold load_file.
  eapply related_bind; [apply related_lift|]. intros log_file ? <-.
  eapply related_bind.
  { apply related_for_in; [|exact Hxy]. intros il a b. apply related_load_line. }
  intros a b Hab.
  eapply related_bind; [apply related_logger|]. intros _ _ _. by apply related_ret.
Qed.

(** X12. Loading a list of files and then a second list, in the state the
    first load left, gives the streams and the heap of one load of the two
    lists together: the streams of the second load follow those of the
    first. When the first load raises, so does the load of the two
    lists, with the same exception and state. *)
Theorem load_of_appended_paths paths1 paths2 st :
  (∀ ps1 ss1 st1 ps2 ss2 st2,
     load paths1 st = (inr (ps1, ss1), st1) →
     load paths2 st1 = (inr (ps2, ss2), st2) →
     ∃ st', load (paths1 ++ paths2) st = (inr (ps1 ++ ps2, ss1 ++ ss2), st') ∧
            heap st' = heap st2) ∧
  (∀ e st1, load paths1 st = (inl e, st1) → load (paths1 ++ paths2) st = (inl e, st1)).
Proof.
  split.
  - intros ps1 ss1 st1 ps2 ss2 st2 H1 H2. unfold load in *.
    rewrite for_in_app, run_bind, H1. cbv beta iota.
    assert (Hrel : related (same_added (ps1, ss1) ([], []))
                     (for_in paths2 load_file (ps1, ss1)) (for_in paths2 load_file ([], []))).
    { apply related_for_in; [|apply same_added_refl].
      intros file_path a b. apply related_load_file. }
    specialize (Hrel st1 st1 eq_refl). rewrite H2 in Hrel.
    destruct (for_in paths2 load_file (ps1, ss1) st1) as [[e|a] st']; [done|].
    destruct Hrel as [(ps & ss & -> & [= -> ->]) Hheap]. by exists st'.
  - intros e st1 H1. unfold load in *. by rewrite for_in_app, run_bind, H1.
Qed.

(** ** Choosing a loader, properties *)

(** X1. [getLogFileLoader] returns the triples loader for
    [REPLAYER_TRIPLES] and for no other format: for [HAPROXY_JSONS], which
    the enumeration declares, the mapping has no loader and the function
    raises [UnknownLogFileFormatException] carrying the requested format;
    the [KeyError] of the look-up itself never reaches the caller. *)
Theorem getLogFileLoader_supports logFileFormat :
  ((∃ cls, getLogFileLoader logFileFormat = inr cls) ↔ logFileFormat = REPLAYER_TRIPLES) ∧
  (∀ x, getLogFileLoader logFileFormat = inl x →
     x = MkUnknownLogFileFormatException logFileFormat logFileFormat) ∧
  getLogFileLoader HAPROXY_JSONS
  = inl (MkUnknownLogFileFormatException HAPROXY_JSONS HAPROXY_JSONS).
Proof.
  split_and!; [|by destruct logFileFormat; intros x [= <-]|done].
  destruct logFileFormat; split; try done.
  - by intros [cls H].
  - intros _. by eexists.
Qed.

End ReplayerTriplesFileLoader.

(** ** The claims on concrete lines *)

Lemma parseLine_pairs_are_linked_witness :
  let st' := (_parseLine MiniJson.loads Fixtures.LOG_ENTRY init).2 in
  ∃ p s rq,
    heap st' !! 2 = Some (OPair p) ∧
    heap st' !! 4 = Some (OPair s) ∧
    2 ≠ 4 ∧
    RequestResponsePair.corresponding_pair p = Some 4 ∧
    RequestResponsePair.corresponding_pair s = Some 2 ∧
    RequestResponsePair.request p = RequestResponsePair.request s ∧
    heap st' !! RequestResponsePair.request p = Some (ORequest rq).
Proof.
  apply (parseLine_pairs_are_linked MiniJson.loads Fixtures.LOG_ENTRY init 2 4).
  vm_compute. reflexivity.
Defined.

Lemma load_streams_are_parallel_witness :
  let files := [[Fixtures.small_line; Fixtures.no_shadow_line];
                [Fixtures.garbage_line; Fixtures.LOG_ENTRY; Fixtures.bad_status_line]] in
  let valid := List.filter (parses MiniJson.loads) (concat files) in
  ∃ primaryPairs shadowPairs st',
    load MiniJson.loads Fixtures.two_files ["a.log"; "b.log"] init
    = (inr (primaryPairs, shadowPairs), st') ∧
    length primaryPairs = length valid ∧
    length shadowPairs = length valid ∧
    ∀ i p s,
      primaryPairs !! i = Some p → shadowPairs !! i = Some s →
      linked (heap st') p s ∧
      ∃ line, valid !! i = Some line ∧ from_line MiniJson.loads (heap st') line p s.
Proof.
  intros files valid.
  apply (load_streams_are_parallel MiniJson.loads Fixtures.two_files
           ["a.log"; "b.log"] files init).
  vm_compute. reflexivity.
Defined.

Lemma body_is_json_or_raw_witness :
  MiniJson.loads "" = None ∧
  _parseBodyAsJson MiniJson.loads (PStr "gz") init
  = (inr (PStr "gz"), grown init [] [Debug_body_not_json (PStr "gz")]) ∧
  (_parseBodyAsJson MiniJson.loads (PStr "") init).1 = inr (PStr "").
Proof.
  split; [reflexivity|]. split.
  - apply (proj1 (body_is_json_or_raw MiniJson.loads "gz" eq_refl) init).
  - apply (proj1 (proj2 (body_is_json_or_raw MiniJson.loads "gz" eq_refl)) init).
Defined.

Lemma ignored_fields_never_in_headers_witness :
  (∃ r hd,
     heap (_parseRequest MiniJson.loads Fixtures.request_record init).2 !! 0 = Some (ORequest r) ∧
     Request.headers r = PDict hd ∧
     Forall (λ field, hd !! field = None) ignored_fields) ∧
  (∃ r hd,
     heap (_parseResponse MiniJson.loads Fixtures.response_record init).2 !! 0 = Some (OResponse r) ∧
     Response.headers r = PDict hd ∧
     Forall (λ field, hd !! field = None) ignored_fields).
Proof.
  split.
  - apply (ignored_fields_never_in_headers MiniJson.loads Fixtures.request_record init 0).
    vm_compute. reflexivity.
  - apply (ignored_fields_never_in_headers MiniJson.loads Fixtures.response_record init 0).
    vm_compute. reflexivity.
Defined.

Lemma other_fields_are_headers_witness :
  ∃ r hd,
    heap (_parseResponse MiniJson.loads Fixtures.response_record init).2 !! 0 = Some (OResponse r) ∧
    Response.headers r = PDict hd ∧
    hd !! "reason-phrase" = Fixtures.response_fields_of (PStr "200") (PInt 14) !! "reason-phrase".
Proof.
  apply (other_fields_are_headers MiniJson.loads
           (Fixtures.response_fields_of (PStr "200") (PInt 14)) init 0 _ "reason-phrase").
  - apply (bool_decide_unpack _). vm_compute. exact I.
  - apply (bool_decide_unpack _). vm_compute. exact I.
  - vm_compute. reflexivity.
Defined.

Lemma missing_section_is_KeyError_witness :
  ∃ first,
    first_missing sections
      (<["request" := PNone]> (<["primaryResponse" := PNone]> ∅)) = Some first ∧
    first ∈ sections ∧
    (<["request" := PNone]> (<["primaryResponse" := PNone]> ∅) : gmap string pyval) !! first = None ∧
    _parseLine MiniJson.loads (MiniJson.quoted "{'primaryResponse': null, 'request': null}") init
    = (inl (KeyError first), init).
Proof.
  apply (missing_section_is_KeyError MiniJson.loads _ _ "shadowResponse").
  - vm_compute. reflexivity.
  - apply (bool_decide_unpack _). vm_compute. exact I.
  - vm_compute. reflexivity.
Defined.

Lemma stdin_errors_propagate_witness :
  next MiniJson.loads (load_from_stdin [Fixtures.no_shadow_line; Fixtures.small_line]) init
  = (inl (KeyError "shadowResponse"), Finished, init) ∧
  ∀ file_path i streams,
    load_line MiniJson.loads file_path (i, Fixtures.no_shadow_line) streams init
    = (inr streams,
       mkState (heap init) (log init ++ [Info_line_error i file_path (KeyError "shadowResponse")])).
Proof.
  apply (stdin_errors_propagate MiniJson.loads Fixtures.no_shadow_line
           [Fixtures.small_line] init (KeyError "shadowResponse") init).
  vm_compute. reflexivity.
Defined.

Lemma missing_field_is_KeyError_witness :
  fails (_parseRequest MiniJson.loads (PDict (<["body" := PStr ""]> (<["Method" := PStr "GET"]> ∅))))
        (KeyError "Request-URI") ∧
  fails (_parseResponse MiniJson.loads (PDict (<["Method" := PStr "GET"]> ∅)))
        (KeyError "body") ∧
  fails (_parseLine MiniJson.loads
           (MiniJson.quoted "{'request': {'body': ''}, 'primaryResponse': 1, 'shadowResponse': 2}"))
        (KeyError "Method").
Proof.
  split_and!.
  - apply (missing_field_is_KeyError MiniJson.loads
             (<["body" := PStr ""]> (<["Method" := PStr "GET"]> ∅)) "Request-URI");
      vm_compute; reflexivity.
  - apply (missing_field_is_KeyError MiniJson.loads (<["Method" := PStr "GET"]> ∅) "body");
      vm_compute; reflexivity.
  - destruct (missing_field_is_KeyError MiniJson.loads (<["body" := PStr ""]> ∅) "Method")
      as (_ & _ & Hline); [vm_compute; reflexivity|].
    destruct (Hline
        (MiniJson.quoted "{'request': {'body': ''}, 'primaryResponse': 1, 'shadowResponse': 2}")
        (PDict (<["request" := PDict (<["body" := PStr ""]> ∅)]>
                (<["primaryResponse" := PInt 1]> (<["shadowResponse" := PInt 2]> ∅))))
        (PDict (<["body" := PStr ""]> ∅)) (PInt 1) (PInt 2))
      as (Hrequest & _); [vm_compute; reflexivity..|].
    apply Hrequest; vm_compute; reflexivity.
Defined.

Lemma statuscode_is_int_of_field_witness :
  (is_numeral "200" →
   ∀ st, ∃ l st' r,
     _parseResponse MiniJson.loads Fixtures.response_record st = (inr l, st') ∧
     heap st' !! l = Some (OResponse r) ∧
     Response.statuscode r = PInt (numeral_value "200")) ∧
  match int_of_str "200" with
  | Some n =>
      ∀ st, ∃ l st' r,
        _parseResponse MiniJson.loads Fixtures.response_record st = (inr l, st') ∧
        heap st' !! l = Some (OResponse r) ∧ Response.statuscode r = PInt n
  | None => fails (_parseResponse MiniJson.loads Fixtures.response_record) ValueError
  end.
Proof.
  apply (statuscode_is_int_of_field MiniJson.loads
           (Fixtures.response_fields_of (PStr "200") (PInt 14)) "gz" (PInt 14) (PStr "200"));
    vm_compute; reflexivity.
Defined.

Lemma latency_is_stored_verbatim_witness :
  let d := Fixtures.response_fields_of (PStr "200") (PStr "14") in
  ∃ r, heap (_parseResponse MiniJson.loads (PDict d) init).2 !! 0 = Some (OResponse r) ∧
       Response.latency r = PStr "14".
Proof.
  intros d.
  apply (latency_is_stored_verbatim MiniJson.loads d (PStr "14") init); vm_compute; reflexivity.
Defined.

(** ** Where the code departs from claims C7 and C8 *)

(** C7 as stated fails: the exception raised for a missing field does not
    tell the kind of record. A request record and a response record that
    both lack [body] raise the same [KeyError], so no reading of the
    exception gives the record kind. Moreover a record with a [body] that
    is not a string and without [Method] raises [TypeError], not the
    error of a missing field. *)
Lemma missing_field_error_has_no_record_kind :
  (_parseRequest MiniJson.loads (PDict ∅) init).1 = inl (KeyError "body") ∧
  (_parseResponse MiniJson.loads (PDict ∅) init).1 = inl (KeyError "body") ∧
  ¬ (∃ kind_of : exn → record_kind,
       (∀ d field e, first_missing request_fields d = Some field →
          (_parseRequest MiniJson.loads (PDict d) init).1 = inl e → kind_of e = RequestRecord) ∧
       (∀ d field e, first_missing response_fields d = Some field →
          (_parseResponse MiniJson.loads (PDict d) init).1 = inl e → kind_of e = ResponseRecord)) ∧
  first_missing request_fields (<["body" := PInt 5]> ∅) = Some "Method" ∧
  (_parseRequest MiniJson.loads (PDict (<["body" := PInt 5]> ∅)) init).1 = inl TypeError.
Proof.
  split_and!; try (vm_compute; reflexivity).
  intros (kind_of & Hrequest & Hresponse).
  assert (kind_of (KeyError "body") = RequestRecord) as Hq.
  { apply (Hrequest ∅ "body"); vm_compute; reflexivity. }
  assert (kind_of (KeyError "body") = ResponseRecord) as Hp.
  { apply (Hresponse ∅ "body"); vm_compute; reflexivity. }
  congruence.
Qed.

(** C8 as stated fails: [true] is not a number, yet a response record
    whose [Status-Code] is [true] converts, with [statuscode] 1, and no
    error is raised. Nor is being numeric what decides otherwise: the
    float 200.0 converts while the string 200.0 fails. *)
Lemma boolean_status_code_converts :
  MiniJson.loads (MiniJson.quoted "{'body': 'gz', 'response_time_ms': 14, 'Status-Code': true}")
  = Some (PDict (<["body" := PStr "gz"]> (<["response_time_ms" := PInt 14]>
                 (<["Status-Code" := PBool true]> ∅)))) ∧
  _parseResponse MiniJson.loads
    (PDict (<["body" := PStr "gz"]> (<["response_time_ms" := PInt 14]>
            (<["Status-Code" := PBool true]> ∅)))) init
  = (inr 0, mkState [OResponse (Response.mk PNone (PInt 1) (PDict ∅) (PInt 14) (PStr "gz"))]
                    [Debug_body_not_json (PStr "gz")]) ∧
  (_parseResponse MiniJson.loads
     (PDict (<["body" := PStr "gz"]> (<["response_time_ms" := PInt 14]>
             (<["Status-Code" := PFloat (FFinite 200 0)]> ∅)))) init).1 = inr 0 ∧
  (_parseResponse MiniJson.loads
     (PDict (<["body" := PStr "gz"]> (<["response_time_ms" := PInt 14]>
             (<["Status-Code" := PStr "200.0"]> ∅)))) init).1 = inl ValueError.
Proof. split_and!; vm_compute; reflexivity. Qed.

(** ** The repository's test and the scenarios of the specification *)

(** [test_WHEN_load_log_file_called_AND_valid_replayer_triples_THEN_returns_it] *)
Example load_valid_replayer_triples :
  load MiniJson.loads (<["triple.json" := [Fixtures.LOG_ENTRY]]> ∅) ["triple.json"] init
  = (inr ([2], [4]),
     mkState
       [ORequest Fixtures.LOG_ENTRY_REQUEST;
        OResponse Fixtures.LOG_ENTRY_PRIMARY_RESPONSE;
        OPair (RequestResponsePair.mk 0 1 (Some 4));
        OResponse Fixtures.LOG_ENTRY_SHADOW_RESPONSE;
        OPair (RequestResponsePair.mk 0 3 (Some 2))]
       [Debug_body_not_json (PStr ""); Info_loaded 1 1 "triple.json"]).
Proof. vm_compute. reflexivity. Qed.

(** Two files with two valid lines among five: streams of length two, three
    lines skipped and logged with path and line number, the lines of each
    file counted from 0. *)
Example load_two_files :
  let '(r, st') := load MiniJson.loads Fixtures.two_files ["a.log"; "b.log"] init in
  r = inr ([2; 7], [4; 9]) ∧
  List.filter (λ x, match x with Debug_body_not_json _ => false | _ => true end) (log st')
  = [Info_line_error 1 "a.log" (KeyError "shadowResponse");
     Info_loaded 1 1 "a.log";
     Info_line_error 0 "b.log" JSONDecodeError;
     Info_line_error 2 "b.log" ValueError;
     Info_loaded 2 2 "b.log"].
Proof. vm_compute. split; reflexivity. Qed.

(** A path that cannot be opened ends the load with the error of [open]. *)
Example load_missing_file :
  (load MiniJson.loads Fixtures.two_files ["a.log"; "c.log"] init).1
  = inl (FileNotFoundError "c.log").
Proof. vm_compute. reflexivity. Qed.

(** A generator whose line failed is finished: the next [next] raises
    [StopIteration] although a valid line was left. *)
Example stdin_generator_after_error :
  let '(_, g, st) :=
    next MiniJson.loads (load_from_stdin [Fixtures.garbage_line; Fixtures.small_line]) init in
  g = Finished ∧ (next MiniJson.loads g st).1.1 = inl StopIteration.
Proof. vm_compute. split; reflexivity. Qed.

Example stdin_generator_yields :
  let '(r, g, _) :=
    next MiniJson.loads (load_from_stdin [Fixtures.small_line; Fixtures.garbage_line]) init in
  r = inr (2, 4) ∧ g = Suspended [Fixtures.garbage_line].
Proof. vm_compute. split; reflexivity. Qed.

(** ** The built-ins and the reference decoder on concrete inputs *)

Local Open Scope Z_scope.

Example int_of_str_200 : int_of_str "200" = Some 200.
Proof. reflexivity. Qed.

Example int_of_str_padded : int_of_str "  -2_00 " = Some (-200).
Proof. reflexivity. Qed.

Example int_of_str_fraction : int_of_str "200.0" = None.
Proof. reflexivity. Qed.

Example int_of_str_bad_underscore : int_of_str "2__00" = None /\ int_of_str "_200" = None /\ int_of_str "200_" = None.
Proof. repeat split; reflexivity. Qed.

Example int_of_str_empty : int_of_str "" = None /\ int_of_str "+" = None /\ int_of_str "+ 1" = None.
Proof. repeat split; reflexivity. Qed.

Example loads_empty : MiniJson.loads "" = None.
Proof. reflexivity. Qed.

Example loads_scalars :
  MiniJson.loads "null" = Some PNone ∧ MiniJson.loads " 14 " = Some (PInt 14) ∧ MiniJson.loads "-3" = Some (PInt (-3)) ∧
  MiniJson.loads "true" = Some (PBool true) ∧ MiniJson.loads (MiniJson.quoted "'a\nb'") = Some (PStr (String "a" (String "010" "b"))).
Proof. repeat split; reflexivity. Qed.

Example loads_rejects :
  MiniJson.loads "tru" = None ∧ MiniJson.loads "1 2" = None ∧ MiniJson.loads "[1,2" = None ∧ MiniJson.loads "01" = None ∧
  MiniJson.loads "{'a':1}" = None ∧ MiniJson.loads "[1,]" = None.
Proof. repeat split; reflexivity. Qed.

Example loads_object :
  MiniJson.loads (MiniJson.quoted "{'a': [1, {'b': null}], 'c': 'x', 'a': 2}")
  = Some (PDict (<["a" := PInt 2]> (<["c" := PStr "x"]> ∅))).
Proof. vm_compute. reflexivity. Qed.

Local Close Scope Z_scope.

(** ** The further properties on concrete inputs *)

Lemma getLogFileLoader_supports_witness :
  (∃ cls, getLogFileLoader REPLAYER_TRIPLES = inr cls) ∧
  ¬ (∃ cls, getLogFileLoader HAPROXY_JSONS = inr cls).
Proof.
  split.
  - apply (proj1 (getLogFileLoader_supports REPLAYER_TRIPLES)). reflexivity.
  - intros H. apply (proj1 (getLogFileLoader_supports HAPROXY_JSONS)) in H. discriminate H.
Defined.

Lemma parseLine_exceptions_witness :
  _parseLine MiniJson.loads Fixtures.garbage_line init = (inl JSONDecodeError, init) ∧
  "shadowResponse" ∈ sections ++ request_fields ++ response_fields.
Proof.
  split.
  - apply (proj1 (parseLine_exceptions MiniJson.loads Fixtures.garbage_line init)).
    vm_compute. reflexivity.
  - apply (proj2 (parseLine_exceptions MiniJson.loads Fixtures.no_shadow_line init)
             (KeyError "shadowResponse") init).
    vm_compute. reflexivity.
Defined.

Lemma request_record_converts_witness :
  let d : gmap string pyval :=
    <["body" := PStr "[1]"]> (<["Method" := PInt 7]> (<["Request-URI" := PNone]>
      (<["HTTP-Version" := PStr "HTTP/1.1"]> (<["Accept" := PStr "*/*"]> ∅)))) in
  ∃ st',
    _parseRequest MiniJson.loads (PDict d) init = (inr (length (heap init)), st') ∧
    heap st' = heap init ++
      [ORequest (Request.mk PNone (PInt 7) PNone
         (PDict (delete "HTTP-Version" (delete "Reason-Phrase"
            (delete "Request-URI" (delete "Method" (delete "body" d))))))
         (default (PStr "[1]") (MiniJson.loads "[1]")))].
Proof.
  intros d.
  apply (request_record_converts MiniJson.loads d "[1]" (PInt 7) PNone init);
    vm_compute; reflexivity.
Defined.

Lemma non_objects_are_rejected_witness :
  _parseLine MiniJson.loads "[]" init = (inl TypeError, init) ∧
  fails (_parseRequest MiniJson.loads (PList [])) TypeError ∧
  fails (_parseResponse MiniJson.loads (PStr "x")) AttributeError.
Proof.
  split_and!.
  - apply (proj1 (non_objects_are_rejected MiniJson.loads (PList []) eq_refl)).
    vm_compute. reflexivity.
  - apply (proj1 (proj2 (non_objects_are_rejected MiniJson.loads (PList []) eq_refl))).
  - apply (proj2 (proj2 (non_objects_are_rejected MiniJson.loads (PStr "x") eq_refl))).
Defined.

Lemma non_string_body_is_TypeError_witness :
  fails (_parseBodyAsJson MiniJson.loads (PDict ∅)) TypeError ∧
  fails (_parseRequest MiniJson.loads (PDict (<["body" := PDict ∅]> ∅))) TypeError ∧
  fails (_parseResponse MiniJson.loads (PDict (<["body" := PDict ∅]> ∅))) TypeError.
Proof.
  apply (non_string_body_is_TypeError MiniJson.loads (<["body" := PDict ∅]> ∅) (PDict ∅));
    vm_compute; reflexivity.
Defined.

Lemma load_allocates_blocks_witness :
  let st' := (load MiniJson.loads Fixtures.two_files ["a.log"; "b.log"] init).2 in
  blocks (length (heap init)) (heap st') [2; 7] [4; 9] ∧
  (∀ i p, [2; 7] !! i = Some p →
     length (heap init) + 2 ≤ p ∧ [4; 9] !! i = Some (p + 2)) ∧
  (∀ i j p q, i < j → [2; 7] !! i = Some p → [2; 7] !! j = Some q → p + 5 ≤ q).
Proof.
  apply (load_allocates_blocks MiniJson.loads Fixtures.two_files ["a.log"; "b.log"] init).
  vm_compute. reflexivity.
Defined.

Lemma load_info_records_witness :
  ∃ lg,
    log (load MiniJson.loads Fixtures.two_files ["a.log"; "b.log"] init).2 = log init ++ lg ∧
    List.filter is_info lg
    = load_records MiniJson.loads 0
        (zip ["a.log"; "b.log"]
           [[Fixtures.small_line; Fixtures.no_shadow_line];
            [Fixtures.garbage_line; Fixtures.LOG_ENTRY; Fixtures.bad_status_line]]).
Proof.
  apply (load_info_records MiniJson.loads Fixtures.two_files ["a.log"; "b.log"]).
  vm_compute. reflexivity.
Defined.

Lemma stdin_agrees_with_batch_witness :
  let lines := [Fixtures.small_line; Fixtures.LOG_ENTRY] in
  ∃ pairs st',
    nexts MiniJson.loads (length lines) (load_from_stdin lines) init
    = (inr <$> pairs, Suspended [], st') ∧
    for_in (enumerate_from 0 lines) (load_line MiniJson.loads "a.log") ([], []) init
    = (inr ([] ++ pairs.*1, [] ++ pairs.*2), st') ∧
    ∀ k, nexts MiniJson.loads (length lines + S k) (load_from_stdin lines) init
         = ((inr <$> pairs) ++ replicate (S k) (inl StopIteration), Finished, st').
Proof.
  intros lines.
  apply (stdin_agrees_with_batch MiniJson.loads lines "a.log" 0 [] [] init).
  repeat constructor; vm_compute; reflexivity.
Defined.

Lemma stdin_stops_at_first_error_witness :
  let good := [Fixtures.small_line] in
  let rest := [Fixtures.LOG_ENTRY] in
  ∃ pairs e st_good st',
    length pairs = length good ∧
    nexts MiniJson.loads (length good)
      (load_from_stdin (good ++ Fixtures.no_shadow_line :: rest)) init
    = (inr <$> pairs, Suspended (Fixtures.no_shadow_line :: rest), st_good) ∧
    _parseLine MiniJson.loads Fixtures.no_shadow_line st_good = (inl e, st') ∧
    ∀ k, nexts MiniJson.loads (length good + S k)
           (load_from_stdin (good ++ Fixtures.no_shadow_line :: rest)) init
         = ((inr <$> pairs) ++ inl e :: replicate k (inl StopIteration), Finished, st').
Proof.
  intros good rest.
  apply (stdin_stops_at_first_error MiniJson.loads good Fixtures.no_shadow_line rest init).
  - repeat constructor; vm_compute; reflexivity.
  - vm_compute. reflexivity.
Defined.

Lemma load_of_appended_paths_witness :
  let st1 := (load MiniJson.loads Fixtures.two_files ["a.log"] init).2 in
  let st2 := (load MiniJson.loads Fixtures.two_files ["b.log"] st1).2 in
  ∃ st',
    load MiniJson.loads Fixtures.two_files (["a.log"] ++ ["b.log"]) init
    = (inr ([2] ++ [7], [4] ++ [9]), st') ∧
    heap st' = heap st2.
Proof.
  intros st1 st2.
  apply (proj1 (load_of_appended_paths MiniJson.loads Fixtures.two_files
                  ["a.log"] ["b.log"] init) [2] [4] st1 [7] [9] st2);
    vm_compute; reflexivity.
Defined.

(** A load of two files writes cumulative counts, and a file that cannot
    be opened loses the pairs of the files before it. *)
Example load_records_two_files :
  load_records MiniJson.loads 0
    (zip ["a.log"; "b.log"]
       [[Fixtures.small_line; Fixtures.no_shadow_line];
        [Fixtures.garbage_line; Fixtures.LOG_ENTRY; Fixtures.bad_status_line]])
  = [Info_line_error 1 "a.log" (KeyError "shadowResponse");
     Info_loaded 1 1 "a.log";
     Info_line_error 0 "b.log" JSONDecodeError;
     Info_line_error 2 "b.log" ValueError;
     Info_loaded 2 2 "b.log"].
Proof. vm_compute. reflexivity. Qed.
